(** * Seating-chart generator: a shallow embedding of [randomseat_plus.py]

    The development follows the Python module top-down: the data classes,
    the adjacency index, the feasibility checker, the backtracking solver
    and the multi-layout generator.  Python integers are unbounded, hence
    [Z]; a [set] is a [gset Z]; a [dict] that is only read by key is a
    [gmap]; the [assignments] dict, whose insertion order drives
    [items()], is an association list. *)

From stdpp Require Import gmap list sorting strings.
From Stdlib Require Import ZArith Lia.

Local Open Scope Z_scope.
Set Warnings "-clear-no-such-hyp".

(** ** Data classes *)

Module Seat.
Record t := mk { id : Z; row : Z; col : Z }.
End Seat.

Module StudentConstraint.
Record t := mk {
  id : Z;
  allowed_rows : option (gset Z);
  allowed_cols : option (gset Z);
  must_be_adjacent_to : gset Z;
  must_not_adjacent_to : gset Z
}.
End StudentConstraint.

(** ** [collections.defaultdict(set)]

    [d[k]] on a [defaultdict(set)] returns the stored set, and when [k] is
    not a key it first stores a fresh empty set under [k]: the read has a
    write in it. *)

Module DefaultDict.
Abbreviation t := (gmap Z (gset Z)).

(** The value [d[k]] evaluates to. *)
Definition read (d : t) (k : Z) : gset Z := default ∅ (d !! k).

(** The dictionary after [d[k]] has been evaluated. *)
Definition touch (d : t) (k : Z) : t :=
  match d !! k with
  | Some _ => d
  | None => <[k := ∅]> d
  end.

(** [d[k].add(v)] *)
Definition add (d : t) (k v : Z) : t :=
  <[k := read d k ∪ {[v]}]> (touch d k).

(** [v in d[k]], as a boolean. *)
Definition mem (d : t) (k v : Z) : bool := bool_decide (v ∈ read d k).
End DefaultDict.

(** ** Seat layout and adjacency *)

Definition build_default_seats : list Seat.t :=
  let grid :=
    flat_map (fun r => map (fun c => (r, c)) (seqZ 1 6)) (seqZ 1 6) in
  imap (fun i rc => Seat.mk (Z.of_nat i + 1) rc.1 rc.2) grid
  ++ [Seat.mk 37 7 2].

(** The body of the inner loop of [build_adjacency_maps]. *)
Definition adjacency_step (s1 s2 : Seat.t)
    (acc : DefaultDict.t * DefaultDict.t) : DefaultDict.t * DefaultDict.t :=
  if Seat.id s1 =? Seat.id s2 then acc
  else
    let dr := Z.abs (Seat.row s1 - Seat.row s2) in
    let dc := Z.abs (Seat.col s1 - Seat.col s2) in
    let lr :=
      if (dr =? 0) && (dc =? 1)
      then DefaultDict.add acc.1 (Seat.id s1) (Seat.id s2) else acc.1 in
    let a9 :=
      if (dr <=? 1) && (dc <=? 1)
      then DefaultDict.add acc.2 (Seat.id s1) (Seat.id s2) else acc.2 in
    (lr, a9).

Definition build_adjacency_maps (seats : list Seat.t)
    : DefaultDict.t * DefaultDict.t :=
  foldl (fun acc s1 => foldl (fun acc s2 => adjacency_step s1 s2 acc) acc seats)
        (∅, ∅) seats.

(** The two geometric relations the index is meant to hold. *)
Definition left_right (s1 s2 : Seat.t) : Prop :=
  Z.abs (Seat.row s1 - Seat.row s2) = 0 ∧ Z.abs (Seat.col s1 - Seat.col s2) = 1.

Definition nine_box (s1 s2 : Seat.t) : Prop :=
  Z.abs (Seat.row s1 - Seat.row s2) ≤ 1 ∧ Z.abs (Seat.col s1 - Seat.col s2) ≤ 1.


(** ** Python exceptions the modelled code can raise *)

Inductive exn := KeyError.

(** ** [dict[int, int]], in insertion order

    [assignments] is iterated with [items()], so the order of its entries
    is kept: an association list, updated the way a Python dict is. *)

Module Dict.
Abbreviation t := (list (Z * Z)).

(** [d.get(k)] *)
Fixpoint get (d : t) (k : Z) : option Z :=
  match d with
  | [] => None
  | (k', v) :: d' => if decide (k' = k) then Some v else get d' k
  end.

(** [k in d] *)
Definition contains (d : t) (k : Z) : bool :=
  match get d k with Some _ => true | None => false end.

(** [d[k] = v]: an existing key keeps its position, a new one goes last. *)
Fixpoint set (d : t) (k v : Z) : t :=
  match d with
  | [] => [(k, v)]
  | (k', v') :: d' =>
      if decide (k' = k) then (k, v) :: d' else (k', v') :: set d' k v
  end.

(** [del d[k]]: [None] stands for the [KeyError] of a missing key. *)
Fixpoint del (d : t) (k : Z) : option t :=
  match d with
  | [] => None
  | (k', v') :: d' =>
      if decide (k' = k) then Some d'
      else match del d' k with
           | Some d'' => Some ((k', v') :: d'')
           | None => None
           end
  end.

(** [d.keys()], [d.values()] *)
Definition keys (d : t) : list Z := d.*1.
Definition values (d : t) : list Z := d.*2.

(** The finite map a dict denotes. *)
Definition to_map (d : t) : gmap Z Z := list_to_map d.
End Dict.

(** ** [random]

    The generator is the sequence of its future draws; [randbelow n]
    consumes one.  [shuffle] is the library's in-place Fisher-Yates pass:
    [for i in reversed(range(1, len(x))): j = randbelow(i + 1);
    x[i], x[j] = x[j], x[i]]. *)

Module Random.
Definition t := list nat.

Definition randbelow (n : nat) (g : t) : nat * t :=
  match g with
  | [] => (0%nat, [])
  | x :: g' => ((x mod n)%nat, g')
  end.

(** [x[i], x[j] = x[j], x[i]] *)
Definition swap (x : list Z) (i j : nat) : list Z :=
  match x !! i, x !! j with
  | Some a, Some b => <[j := a]> (<[i := b]> x)
  | _, _ => x
  end.

Fixpoint shuffle_from (i : nat) (x : list Z) (g : t) : list Z * t :=
  match i with
  | O => (x, g)
  | S i' =>
      let '(j, g') := randbelow (S i) g in
      shuffle_from i' (swap x i j) g'
  end.

Definition shuffle (x : list Z) (g : t) : list Z * t :=
  shuffle_from (length x - 1) x g.
End Random.

(** ** Program state

    The objects the solver reads and writes.  [lists] is the heap of list
    objects, by address: [generate_multiple_layouts] shuffles the list it
    is handed in place, and whether the caller sees that depends on which
    object it passed.  [st.session_state] is ambient: it is not among the
    arguments of any function below, and is only read. *)

Record SessionState := mkSession {
  seat_by_id : option (gmap Z Seat.t)
}.

Record State := mkState {
  lists : gmap nat (list Z);
  assignments : Dict.t;
  constraints : gmap Z StudentConstraint.t;
  adjacent_lr : DefaultDict.t;
  adjacent_9 : DefaultDict.t;
  gen : Random.t
}.

Definition with_lists (σ : State) (l : gmap nat (list Z)) : State :=
  mkState l (assignments σ) (constraints σ) (adjacent_lr σ) (adjacent_9 σ) (gen σ).
Definition with_assignments (σ : State) (a : Dict.t) : State :=
  mkState (lists σ) a (constraints σ) (adjacent_lr σ) (adjacent_9 σ) (gen σ).
Definition with_adjacent_lr (σ : State) (d : DefaultDict.t) : State :=
  mkState (lists σ) (assignments σ) (constraints σ) d (adjacent_9 σ) (gen σ).
Definition with_adjacent_9 (σ : State) (d : DefaultDict.t) : State :=
  mkState (lists σ) (assignments σ) (constraints σ) (adjacent_lr σ) d (gen σ).
Definition with_gen (σ : State) (g : Random.t) : State :=
  mkState (lists σ) (assignments σ) (constraints σ) (adjacent_lr σ) (adjacent_9 σ) g.

(** [adjacent_lr[k]] and [adjacent_9[k]]: the set read, and the state after
    the read.  The two maps are the [defaultdict(set)] objects that
    [build_adjacency_maps] returns and [main] passes on, so the read of a
    missing key stores an empty set; on a plain [dict] it would raise
    [KeyError]. *)
Definition lr_get (k : Z) (σ : State) : gset Z * State :=
  (DefaultDict.read (adjacent_lr σ) k,
   with_adjacent_lr σ (DefaultDict.touch (adjacent_lr σ) k)).

Definition box_get (k : Z) (σ : State) : gset Z * State :=
  (DefaultDict.read (adjacent_9 σ) k,
   with_adjacent_9 σ (DefaultDict.touch (adjacent_9 σ) k)).

(** ** Constraint checking *)

Definition is_seat_allowed_for_student
    (seat : Seat.t) (sc : option StudentConstraint.t) : bool :=
  match sc with
  | None => true
  | Some sc =>
      if match StudentConstraint.allowed_rows sc with
         | Some rows => negb (bool_decide (Seat.row seat ∈ rows))
         | None => false
         end then false
      else if match StudentConstraint.allowed_cols sc with
              | Some cols => negb (bool_decide (Seat.col seat ∈ cols))
              | None => false
              end then false
      else true
  end.

(** The three loops of [check_partial_constraints].  Each returns [false]
    where the source executes [return False], and [true] when it runs to
    its end. *)

(** [for other in sc.must_be_adjacent_to: ...] *)
Fixpoint must_be_loop (others : list Z) (seat_id : Z) (σ : State)
    : bool * State :=
  match others with
  | [] => (true, σ)
  | other :: others' =>
      match Dict.get (assignments σ) other with
      | Some other_seat =>
          let '(nbrs, σ') := lr_get seat_id σ in
          if bool_decide (other_seat ∈ nbrs)
          then must_be_loop others' seat_id σ'
          else (false, σ')
      | None => must_be_loop others' seat_id σ
      end
  end.

(** [for other in sc.must_not_adjacent_to: ...] *)
Fixpoint must_not_loop (others : list Z) (seat_id : Z)
    (use_strict_non_adjacent : bool) (σ : State) : bool * State :=
  match others with
  | [] => (true, σ)
  | other :: others' =>
      match Dict.get (assignments σ) other with
      | Some other_seat =>
          let '(nbrs, σ') :=
            if use_strict_non_adjacent
            then box_get seat_id σ else lr_get seat_id σ in
          if bool_decide (other_seat ∈ nbrs)
          then (false, σ')
          else must_not_loop others' seat_id use_strict_non_adjacent σ'
      | None => must_not_loop others' seat_id use_strict_non_adjacent σ
      end
  end.

(** [for other, other_seat in assignments.items(): ...] *)
Fixpoint reverse_loop (items : list (Z * Z)) (student_id seat_id : Z)
    (use_strict_non_adjacent : bool) (σ : State) : bool * State :=
  match items with
  | [] => (true, σ)
  | (other, other_seat) :: items' =>
      match constraints σ !! other with
      | None => reverse_loop items' student_id seat_id use_strict_non_adjacent σ
      | Some osc =>
          let '(ok, σ1) :=
            if bool_decide (student_id ∈ StudentConstraint.must_be_adjacent_to osc)
            then let '(nbrs, σ') := lr_get seat_id σ in
                 (bool_decide (other_seat ∈ nbrs), σ')
            else (true, σ) in
          if negb ok then (false, σ1)
          else
            let '(ok, σ2) :=
              if bool_decide (student_id ∈ StudentConstraint.must_not_adjacent_to osc)
              then let '(nbrs, σ') :=
                     if use_strict_non_adjacent
                     then box_get other_seat σ1 else lr_get other_seat σ1 in
                   (negb (bool_decide (seat_id ∈ nbrs)), σ')
              else (true, σ1) in
            if negb ok then (false, σ2)
            else reverse_loop items' student_id seat_id use_strict_non_adjacent σ2
      end
  end.

Definition check_partial_constraints (session : SessionState)
    (student_id seat_id : Z) (use_strict_non_adjacent : bool) (σ : State)
    : exn + (bool * State) :=
  let sc := constraints σ !! student_id in
  match seat_by_id session with
  | None => inl KeyError
  | Some table =>
      match table !! seat_id with
      | None => inl KeyError
      | Some seat =>
          if negb (is_seat_allowed_for_student seat sc) then inr (false, σ)
          else
            let '(ok, σ1) :=
              match sc with
              | None => (true, σ)
              | Some sc =>
                  let '(ok, σ') :=
                    must_be_loop
                      (elements (StudentConstraint.must_be_adjacent_to sc))
                      seat_id σ in
                  if negb ok then (false, σ')
                  else must_not_loop
                         (elements (StudentConstraint.must_not_adjacent_to sc))
                         seat_id use_strict_non_adjacent σ'
              end in
            if negb ok then inr (false, σ1)
            else inr (reverse_loop (assignments σ1) student_id seat_id
                        use_strict_non_adjacent σ1)
      end
  end.

(** ** The backtracking solver *)

(** Python truthiness of a [set | None] value: [None] and the empty set are
    falsy. *)
Definition truthy (s : option (gset Z)) : bool :=
  match s with
  | None => false
  | Some s => negb (bool_decide (s = ∅))
  end.

Definition constraint_score (cs : gmap Z StudentConstraint.t) (sid : Z) : Z :=
  match cs !! sid with
  | None => 0
  | Some sc =>
      let score := 0 in
      let score :=
        if truthy (StudentConstraint.allowed_rows sc) then score + 2 else score in
      let score :=
        if truthy (StudentConstraint.allowed_cols sc) then score + 2 else score in
      let score :=
        score + 3 * Z.of_nat (size (StudentConstraint.must_be_adjacent_to sc)) in
      let score :=
        score + 3 * Z.of_nat (size (StudentConstraint.must_not_adjacent_to sc)) in
      score
  end.

(** [sorted(l, key=key, reverse=True)]: descending by key, and stable
    (elements with equal keys keep their order). *)
Fixpoint insert_desc (key : Z → Z) (x : Z) (l : list Z) : list Z :=
  match l with
  | [] => [x]
  | y :: l' => if key x <? key y then y :: insert_desc key x l' else x :: y :: l'
  end.

Definition sorted_reverse (key : Z → Z) (l : list Z) : list Z :=
  foldr (insert_desc key) [] l.

(** The loop that collects [candidate_seats]. *)
Fixpoint candidate_seats (seats : list Seat.t) (sc : option StudentConstraint.t)
    (assigned : Dict.t) : list Z :=
  match seats with
  | [] => []
  | seat :: seats' =>
      if bool_decide (Seat.id seat ∈ Dict.values assigned)
      then candidate_seats seats' sc assigned
      else if negb (is_seat_allowed_for_student seat sc)
      then candidate_seats seats' sc assigned
      else Seat.id seat :: candidate_seats seats' sc assigned
  end.

(** [for seat_id in candidate_seats: ...] inside [backtrack(idx)]; [next]
    is the call [backtrack(idx + 1)]. *)
Fixpoint try_candidates (session : SessionState)
    (next : State → exn + (bool * State))
    (sid : Z) (use_strict_non_adjacent : bool)
    (cands : list Z) (σ : State) : exn + (bool * State) :=
  match cands with
  | [] => inr (false, σ)
  | seat_id :: cands' =>
      match check_partial_constraints session sid seat_id
              use_strict_non_adjacent σ with
      | inl e => inl e
      | inr (false, σ1) =>
          try_candidates session next sid use_strict_non_adjacent cands' σ1
      | inr (true, σ1) =>
          let σ2 := with_assignments σ1 (Dict.set (assignments σ1) sid seat_id) in
          match next σ2 with
          | inl e => inl e
          | inr (true, σ3) => inr (true, σ3)
          | inr (false, σ3) =>
              match Dict.del (assignments σ3) sid with
              | None => inl KeyError
              | Some d =>
                  try_candidates session next sid use_strict_non_adjacent
                    cands' (with_assignments σ3 d)
              end
          end
      end
  end.

(** [backtrack(idx)], on [rest = students_sorted[idx:]], as it runs when
    the call stack has room; [Limited.backtrack] below is the run under the
    interpreter's recursion limit. *)
Fixpoint backtrack (session : SessionState) (seats : list Seat.t)
    (use_strict_non_adjacent : bool) (rest : list Z) (σ : State)
    {struct rest} : exn + (bool * State) :=
  match rest with
  | [] => inr (true, σ)
  | sid :: rest' =>
      let sc := constraints σ !! sid in
      let cands := candidate_seats seats sc (assignments σ) in
      let '(cands, g) := Random.shuffle cands (gen σ) in
      try_candidates session
        (backtrack session seats use_strict_non_adjacent rest')
        sid use_strict_non_adjacent cands (with_gen σ g)
  end.

Definition solve_one_assignment (session : SessionState)
    (students : list Z) (seats : list Seat.t)
    (use_strict_non_adjacent : bool) (σ : State)
    : exn + (option Dict.t * State) :=
  let students_sorted :=
    sorted_reverse (constraint_score (constraints σ)) students in
  let σ0 := with_assignments σ [] in
  match backtrack session seats use_strict_non_adjacent students_sorted σ0 with
  | inl e => inl e
  | inr (ok, σ') => inr (if ok then Some (assignments σ') else None, σ')
  end.

(** ** Generating several layouts *)

(** [tuple(sorted(result.items()))]: pairs in lexicographic order. *)
Definition pair_ltb (p q : Z * Z) : bool :=
  (p.1 <? q.1) || ((p.1 =? q.1) && (p.2 <? q.2)).

Fixpoint insert_asc (p : Z * Z) (l : list (Z * Z)) : list (Z * Z) :=
  match l with
  | [] => [p]
  | q :: l' => if pair_ltb q p then q :: insert_asc p l' else p :: q :: l'
  end.

Definition sorted_items (d : Dict.t) : list (Z * Z) :=
  foldr insert_asc [] d.

(** The list object at an address. *)
Definition list_at (a : nat) (σ : State) : list Z := default [] (lists σ !! a).

(** [random.shuffle(x)] on the list object at address [x]. *)
Definition random_shuffle (x : nat) (σ : State) : State :=
  let '(l, g) := Random.shuffle (list_at x σ) (gen σ) in
  with_gen (with_lists σ (<[x := l]> (lists σ))) g.

(** The state of the [while] loop of [generate_multiple_layouts].  [calls]
    is a ghost: the result of every call of the solver so far, in order. *)
Record Loop := mkLoop {
  layouts : list Dict.t;
  seen : gset (list (Z * Z));
  attempts : Z;
  calls : list (option Dict.t)
}.

(** [attempts += 1] *)
Definition count_attempt (w : Loop) : Loop :=
  mkLoop (layouts w) (seen w) (attempts w + 1) (calls w).

(** The rest of the loop body, once the solver has answered with [result]:
    a failure and a duplicate [continue], a new layout is recorded. *)
Definition record_result (w : Loop) (result : option Dict.t) : Loop :=
  let calls' := calls w ++ [result] in
  match result with
  | None => mkLoop (layouts w) (seen w) (attempts w) calls'
  | Some result =>
      let key := sorted_items result in
      if bool_decide (key ∈ seen w)
      then mkLoop (layouts w) (seen w) (attempts w) calls'
      else mkLoop (layouts w ++ [result]) ({[key]} ∪ seen w) (attempts w) calls'
  end.

(** [len(layouts) < num_layouts and attempts < max_attempts] *)
Definition loop_condition (num_layouts max_attempts : Z) (w : Loop) : bool :=
  (Z.of_nat (length (layouts w)) <? num_layouts)
  && (attempts w <? max_attempts).

(** The [while] loop; [None] is for a loop still running when [fuel] is
    spent. *)
Fixpoint generate_loop (fuel : nat) (session : SessionState)
    (num_layouts max_attempts : Z) (students : nat) (seats : list Seat.t)
    (use_strict_non_adjacent : bool) (w : Loop) (σ : State)
    : option (exn + (Loop * State)) :=
  if loop_condition num_layouts max_attempts w
  then
    match fuel with
    | O => None
    | S fuel' =>
        let w1 := count_attempt w in
        let σ1 := random_shuffle students σ in
        match solve_one_assignment session (list_at students σ1) seats
                use_strict_non_adjacent σ1 with
        | inl e => Some (inl e)
        | inr (result, σ2) =>
            generate_loop fuel' session num_layouts max_attempts students
              seats use_strict_non_adjacent (record_result w1 result) σ2
        end
    end
  else Some (inr (w, σ)).

Definition generate_multiple_layouts (session : SessionState)
    (num_layouts : Z) (students : nat) (seats : list Seat.t)
    (use_strict_non_adjacent : bool) (σ : State)
    : option (exn + (Loop * State)) :=
  let max_attempts := num_layouts * 30 in
  generate_loop (Z.to_nat max_attempts) session num_layouts max_attempts
    students seats use_strict_non_adjacent (mkLoop [] ∅ 0 []) σ.

(** ** The caller in [main] *)

(** [x.copy()]: a new list object with the same elements. *)
Definition list_copy (x : nat) (σ : State) : nat * State :=
  let a := fresh (dom (lists σ)) in
  (a, with_lists σ (<[a := list_at x σ]> (lists σ))).

(** The two calls of [main], each on [student_ids.copy()]: strict first,
    relaxed when the strict call found nothing. *)
Definition main_generate (session : SessionState) (num_layouts : Z)
    (student_ids : nat) (seats : list Seat.t) (σ : State)
    : option (exn + (list Dict.t * State)) :=
  let '(students, σ1) := list_copy student_ids σ in
  match generate_multiple_layouts session num_layouts students seats true σ1 with
  | None => None
  | Some (inl e) => Some (inl e)
  | Some (inr (w, σ2)) =>
      match layouts w with
      | _ :: _ => Some (inr (layouts w, σ2))
      | [] =>
          let '(students, σ3) := list_copy student_ids σ2 in
          match generate_multiple_layouts session num_layouts students seats
                  false σ3 with
          | None => None
          | Some (inl e) => Some (inl e)
          | Some (inr (w, σ4)) => Some (inr (layouts w, σ4))
          end
      end
  end.

(** [init_session_state] on a fresh session: [{s.id: s for s in seats}]. *)
Definition init_session_state (seats : list Seat.t) : SessionState :=
  mkSession (Some (foldl (fun m s => <[Seat.id s := s]> m) ∅ seats)).

(** A state with the given list objects, constraints and adjacency maps. *)
Definition initial_state (ls : gmap nat (list Z))
    (cs : gmap Z StudentConstraint.t) (adj : DefaultDict.t * DefaultDict.t)
    (g : Random.t) : State :=
  mkState ls [] cs adj.1 adj.2 g.

(** ** Specification vocabulary *)

(** A [defaultdict] after some reads: the old entries, and possibly new
    keys bound to the empty set. *)
Definition grown (d d' : DefaultDict.t) : Prop :=
  ∀ k, d' !! k = d !! k ∨ (d !! k = None ∧ d' !! k = Some ∅).

(** What a run of the checker may change: nothing but [grown] adjacency
    maps. *)
Definition check_frame (σ σ' : State) : Prop :=
  lists σ' = lists σ ∧ assignments σ' = assignments σ
  ∧ constraints σ' = constraints σ ∧ gen σ' = gen σ
  ∧ grown (adjacent_lr σ) (adjacent_lr σ')
  ∧ grown (adjacent_9 σ) (adjacent_9 σ').

(** The set a forbidden neighbour is looked up in. *)
Definition forbidden_zone (use_strict_non_adjacent : bool) (σ : State)
    (k : Z) : gset Z :=
  if use_strict_non_adjacent
  then DefaultDict.read (adjacent_9 σ) k
  else DefaultDict.read (adjacent_lr σ) k.

(** The session's seat for an id, when there is one. *)
Definition session_seat (session : SessionState) (seat_id : Z)
    : option Seat.t :=
  match seat_by_id session with
  | Some table => table !! seat_id
  | None => None
  end.

(** The three groups of tests of [check_partial_constraints], as
    propositions over the state the call starts in. *)
Definition positional_ok (session : SessionState) (student_id seat_id : Z)
    (σ : State) : Prop :=
  ∃ seat, session_seat session seat_id = Some seat
          ∧ is_seat_allowed_for_student seat (constraints σ !! student_id) = true.

Definition outgoing_ok (student_id seat_id : Z) (strict : bool) (σ : State)
    : Prop :=
  ∀ sc other other_seat,
    constraints σ !! student_id = Some sc →
    Dict.get (assignments σ) other = Some other_seat →
    (other ∈ StudentConstraint.must_be_adjacent_to sc →
       other_seat ∈ DefaultDict.read (adjacent_lr σ) seat_id)
    ∧ (other ∈ StudentConstraint.must_not_adjacent_to sc →
         other_seat ∉ forbidden_zone strict σ seat_id).

Definition incoming_ok (student_id seat_id : Z) (strict : bool) (σ : State)
    : Prop :=
  ∀ other other_seat osc,
    (other, other_seat) ∈ assignments σ →
    constraints σ !! other = Some osc →
    (student_id ∈ StudentConstraint.must_be_adjacent_to osc →
       other_seat ∈ DefaultDict.read (adjacent_lr σ) seat_id)
    ∧ (student_id ∈ StudentConstraint.must_not_adjacent_to osc →
         seat_id ∉ forbidden_zone strict σ other_seat).

Definition placement_ok (session : SessionState) (student_id seat_id : Z)
    (strict : bool) (σ : State) : Prop :=
  positional_ok session student_id seat_id σ
  ∧ outgoing_ok student_id seat_id strict σ
  ∧ incoming_ok student_id seat_id strict σ.

(** What a run of the solver may change besides [assignments] and the
    generator: nothing but [grown] adjacency maps. *)
Definition solver_frame (σ σ' : State) : Prop :=
  lists σ' = lists σ ∧ constraints σ' = constraints σ
  ∧ grown (adjacent_lr σ) (adjacent_lr σ')
  ∧ grown (adjacent_9 σ) (adjacent_9 σ').

(** The finite map held by [assignments]. *)
Definition amap (σ : State) : gmap Z Z := Dict.to_map (assignments σ).

(** A seat of the layout with this id admits the student. *)
Definition seat_fits (seats : list Seat.t) (cs : gmap Z StudentConstraint.t)
    (student seat_id : Z) : Prop :=
  ∃ seat, seat ∈ seats ∧ Seat.id seat = seat_id
          ∧ is_seat_allowed_for_student seat (cs !! student) = true.

(** What the checks made when the later of two students is placed
    establish about the pair, whichever of the two came first. *)
Definition pair_ok (strict : bool) (σ : State) (a sa b sb : Z) : Prop :=
  ∀ sc, constraints σ !! a = Some sc →
    (b ∈ StudentConstraint.must_be_adjacent_to sc →
       sb ∈ DefaultDict.read (adjacent_lr σ) sa
       ∨ sa ∈ DefaultDict.read (adjacent_lr σ) sb)
    ∧ (b ∈ StudentConstraint.must_not_adjacent_to sc →
         sb ∉ forbidden_zone strict σ sa).

(** A partial assignment that breaks no constraint. *)
Definition legal_partial (session : SessionState) (seats : list Seat.t)
    (strict : bool) (σ : State) (m : gmap Z Z) : Prop :=
  (∀ k1 k2 v, m !! k1 = Some v → m !! k2 = Some v → k1 = k2)
  ∧ (∀ a sa, m !! a = Some sa →
       seat_fits seats (constraints σ) a sa ∧ positional_ok session a sa σ)
  ∧ (∀ a sa b sb, a ≠ b → m !! a = Some sa → m !! b = Some sb →
       pair_ok strict σ a sa b sb).

(** The invariant of the search on the state: the frame relative to the
    state the search started in, and a well-formed dict. *)
Definition search_inv (σ0 σ : State) : Prop :=
  solver_frame σ0 σ ∧ NoDup (Dict.keys (assignments σ)).

(** What a call of [backtrack] on [rest], started in [σ], guarantees when it
    returns [ok] in [σ']. *)
Definition backtrack_post (session : SessionState) (seats : list Seat.t)
    (strict : bool) (σ0 : State) (rest : list Z) (σ : State)
    (ok : bool) (σ' : State) : Prop :=
  search_inv σ0 σ'
  ∧ (ok = false →
       amap σ' ⊆ amap σ ∧ dom (amap σ) ⊆ dom (amap σ') ∪ list_to_set rest)
  ∧ (ok = true →
       dom (amap σ') = dom (amap σ) ∪ list_to_set rest
       ∧ (legal_partial session seats strict σ0 (amap σ) →
          legal_partial session seats strict σ0 (amap σ'))).

(** ** The claims' vocabulary *)

(** An adjacency map read as a relation on seat ids is symmetric. *)
Definition symmetric_adjacency (d : DefaultDict.t) : Prop :=
  ∀ x y, y ∈ DefaultDict.read d x → x ∈ DefaultDict.read d y.

(** Every student with a row or column restriction sits in a seat of the
    layout that meets it. *)
Definition rows_cols_respected (seats : list Seat.t)
    (cs : gmap Z StudentConstraint.t) (a : Dict.t) : Prop :=
  ∀ student seat_id sc,
    (student, seat_id) ∈ a → cs !! student = Some sc →
    ∃ seat, seat ∈ seats ∧ Seat.id seat = seat_id
      ∧ (∀ rows, StudentConstraint.allowed_rows sc = Some rows →
                 Seat.row seat ∈ rows)
      ∧ (∀ cols, StudentConstraint.allowed_cols sc = Some cols →
                 Seat.col seat ∈ cols).

(** Two students, one of whom requires the other next to it, sit in each
    other's left-right sets. *)
Definition must_be_respected (cs : gmap Z StudentConstraint.t)
    (lr : DefaultDict.t) (a : Dict.t) : Prop :=
  ∀ s1 seat1 s2 seat2 sc,
    s1 ≠ s2 → (s1, seat1) ∈ a → (s2, seat2) ∈ a → cs !! s1 = Some sc →
    s2 ∈ StudentConstraint.must_be_adjacent_to sc →
    seat2 ∈ DefaultDict.read lr seat1 ∧ seat1 ∈ DefaultDict.read lr seat2.

(** Two students, one of whom forbids the other next to it, sit outside
    each other's sets in [zone]. *)
Definition must_not_respected (cs : gmap Z StudentConstraint.t)
    (zone : DefaultDict.t) (a : Dict.t) : Prop :=
  ∀ s1 seat1 s2 seat2 sc,
    s1 ≠ s2 → (s1, seat1) ∈ a → (s2, seat2) ∈ a → cs !! s1 = Some sc →
    s2 ∈ StudentConstraint.must_not_adjacent_to sc →
    (seat2 ∉ DefaultDict.read zone seat1) ∧ (seat1 ∉ DefaultDict.read zone seat2).

(** The score as the specification words it: [+2] for an allowed set that
    is present, empty or not. *)
Definition constraint_score_spec (cs : gmap Z StudentConstraint.t) (sid : Z) : Z :=
  match cs !! sid with
  | None => 0
  | Some sc =>
      (if StudentConstraint.allowed_rows sc is Some _ then 2 else 0)
      + (if StudentConstraint.allowed_cols sc is Some _ then 2 else 0)
      + 3 * Z.of_nat (size (StudentConstraint.must_be_adjacent_to sc))
      + 3 * Z.of_nat (size (StudentConstraint.must_not_adjacent_to sc))
  end.

(** "The checker leaves its inputs exactly as they were", for one call. *)
Definition checker_leaves_inputs_unchanged (session : SessionState)
    (student_id seat_id : Z) (strict : bool) (σ : State) : Prop :=
  ∀ b σ', check_partial_constraints session student_id seat_id strict σ
          = inr (b, σ') →
    assignments σ' = assignments σ ∧ constraints σ' = constraints σ
    ∧ adjacent_lr σ' = adjacent_lr σ ∧ adjacent_9 σ' = adjacent_9 σ
    ∧ dom (adjacent_lr σ') = dom (adjacent_lr σ)
    ∧ dom (adjacent_9 σ') = dom (adjacent_9 σ).

(** "The result depends on the declared arguments only", for one choice of
    arguments: any two session states give the same boolean. *)
Definition checker_ignores_session (student_id seat_id : Z) (strict : bool)
    (σ : State) : Prop :=
  ∀ session1 session2 b1 b2 σ1 σ2,
    check_partial_constraints session1 student_id seat_id strict σ = inr (b1, σ1) →
    check_partial_constraints session2 student_id seat_id strict σ = inr (b2, σ2) →
    b1 = b2.

(** ** Example rooms *)

(** One row of three seats. *)
Definition row_of_three : list Seat.t :=
  [Seat.mk 1 1 1; Seat.mk 2 1 2; Seat.mk 3 1 3].

(** Two seats far apart. *)
Definition two_far_seats : list Seat.t := [Seat.mk 1 1 1; Seat.mk 2 5 5].

(** Students 1 and 2 each require the other next to them. *)
Definition mutual_neighbours : gmap Z StudentConstraint.t :=
  {[ 1 := StudentConstraint.mk 1 None None {[2]} ∅;
     2 := StudentConstraint.mk 2 None None {[1]} ∅ ]}.

(** Student 1 is held in column 1; student 2 must keep away from 1. *)
Definition pinned_and_shy : gmap Z StudentConstraint.t :=
  {[ 1 := StudentConstraint.mk 1 None (Some {[1]}) ∅ ∅;
     2 := StudentConstraint.mk 2 None None ∅ {[1]} ]}.

(** A state for a room: the list object at address 0 holds the students. *)
Definition room_state (seats : list Seat.t) (students : list Z)
    (cs : gmap Z StudentConstraint.t) (g : Random.t) : State :=
  initial_state {[ 0%nat := students ]} cs (build_adjacency_maps seats) g.

(** The state a run ends in ([σ] itself when it raised). *)
Definition final_state {A} (r : exn + (A * State)) (σ : State) : State :=
  match r with
  | inr (_, σ') => σ'
  | inl _ => σ
  end.

(** Two states in which every read of the checker returns the same. *)
Definition same_view (σ σ' : State) : Prop :=
  assignments σ' = assignments σ ∧ constraints σ' = constraints σ
  ∧ (∀ k, DefaultDict.read (adjacent_lr σ') k = DefaultDict.read (adjacent_lr σ) k)
  ∧ (∀ k, DefaultDict.read (adjacent_9 σ') k = DefaultDict.read (adjacent_9 σ) k).

(** Student 1 with an allowed-rows set that is present and empty. *)
Definition nowhere_to_sit : gmap Z StudentConstraint.t :=
  {[ 1 := StudentConstraint.mk 1 (Some ∅) None ∅ ∅ ]}.

(** Student 1 placed in seat 1 of the two far seats, student 2 to come. *)
Definition one_placed : State :=
  with_assignments (room_state two_far_seats [1; 2] mutual_neighbours []) [(1, 1)].

(** A session whose seat 1 is in column 2. *)
Definition moved_session : SessionState :=
  init_session_state [Seat.mk 1 1 2].

(** ** Vocabulary for the generator *)

(** The successful results of a sequence of solver calls, each kept only
    when its canonical form has not been met before. *)
Definition keep_new (acc : list Dict.t) (r : option Dict.t) : list Dict.t :=
  match r with
  | None => acc
  | Some a =>
      if bool_decide (sorted_items a ∈ sorted_items <$> acc)
      then acc else acc ++ [a]
  end.

Definition collected (results : list (option Dict.t)) : list Dict.t :=
  foldl keep_new [] results.

(** The invariant of the [while] loop. *)
Definition loop_inv (num_layouts max_attempts : Z) (w : Loop) : Prop :=
  layouts w = collected (calls w)
  ∧ seen w = list_to_set (sorted_items <$> layouts w)
  ∧ attempts w = Z.of_nat (length (calls w))
  ∧ NoDup (sorted_items <$> layouts w)
  ∧ Z.of_nat (length (layouts w)) ≤ Z.max 0 num_layouts
  ∧ attempts w ≤ Z.max 0 max_attempts
  ∧ (∀ p q, calls w = p ++ q → q ≠ [] →
       Z.of_nat (length (collected p)) < num_layouts
       ∧ Z.of_nat (length p) < max_attempts).

(** What a run of the generator on the list at address [students] may
    change: that list is permuted, the other list objects are untouched,
    the constraints are untouched, the adjacency maps are [grown]. *)
Definition generator_frame (students : nat) (σ σ' : State) : Prop :=
  constraints σ' = constraints σ
  ∧ grown (adjacent_lr σ) (adjacent_lr σ')
  ∧ grown (adjacent_9 σ) (adjacent_9 σ')
  ∧ (∀ a, a ≠ students → lists σ' !! a = lists σ !! a)
  ∧ list_at students σ' ≡ₚ list_at students σ.

(** A full assignment of [students] that breaks no declared constraint;
    that every seat id is a seat of the layout is added by [placement]
    below, which is the legal full assignment. *)
Definition legal_assignment (students : list Z) (seats : list Seat.t)
    (strict : bool) (σ : State) (a : Dict.t) : Prop :=
  NoDup (Dict.values a)
  ∧ NoDup (Dict.keys a)
  ∧ (∀ student, student ∈ Dict.keys a ↔ student ∈ students)
  ∧ rows_cols_respected seats (constraints σ) a
  ∧ must_be_respected (constraints σ) (adjacent_lr σ) a
  ∧ must_not_respected (constraints σ)
      (if strict then adjacent_9 σ else adjacent_lr σ) a.



(** ** Vocabulary for the further properties *)

(** No key of the map is bound to the empty set. *)
Definition no_empty_entry (d : DefaultDict.t) : Prop :=
  ∀ k s, d !! k = Some s → s ≠ ∅.

(** A legal assignment into the seats of the layout. *)
Definition placement (students : list Z) (seats : list Seat.t)
    (strict : bool) (σ : State) (a : Dict.t) : Prop :=
  legal_assignment students seats strict σ a
  ∧ ∀ student seat_id, (student, seat_id) ∈ a → seat_id ∈ Seat.id <$> seats.

(** The session's table is the layout: every seat is found under its id. *)
Definition session_agrees (session : SessionState) (seats : list Seat.t) : Prop :=
  ∀ seat, seat ∈ seats → session_seat session (Seat.id seat) = Some seat.

(** [init_session_state] on any session: the table is built only when the
    session has none. *)
Definition init_seat_table (session : SessionState) (seats : list Seat.t)
    : SessionState :=
  match seat_by_id session with
  | Some _ => session
  | None => init_session_state seats
  end.

(** The loop state and the program state a run of the generator ends in. *)
Definition final_loop (r : option (exn + (Loop * State))) : Loop :=
  match r with
  | Some (inr (w, _)) => w
  | _ => mkLoop [] ∅ 0 []
  end.

Definition final_generator_state (r : option (exn + (Loop * State)))
    (σ : State) : State :=
  match r with
  | Some (inr (_, σ')) => σ'
  | _ => σ
  end.

(** ** Building the constraints *)

(** The values the code tells apart in the type column of a rule: the two
    rule types, and anything else. *)
Inductive rule_type := MustBeAdjacent | MustNotBeAdjacent | OtherType.

#[global] Instance rule_type_eq_dec : EqDecision rule_type.
Proof. solve_decision. Defined.

(** A row of the rule editor: [int(a)] and [int(b)], with [None] when the
    conversion raises [TypeError] or [ValueError], and the type cell. *)
Module RuleRow.
Record t := mk { a : option Z; b : option Z; type : rule_type }.
End RuleRow.

(** A cleaned rule, as stored in the session. *)
Module Rule.
Record t := mk { a : Z; b : Z; type : rule_type }.
End Rule.

(** The cleaning loop of [main]: a row is skipped when a number does not
    convert, the type is unknown, the two students are the same, or one of
    them is not in the list. *)
Definition clean_rule (student_ids : list Z) (row : RuleRow.t) : option Rule.t :=
  match RuleRow.a row, RuleRow.b row with
  | Some a, Some b =>
      if bool_decide (RuleRow.type row = OtherType) then None
      else if bool_decide (a = b) then None
      else if bool_decide (a ∉ student_ids ∨ b ∉ student_ids) then None
      else Some (Rule.mk a b (RuleRow.type row))
  | _, _ => None
  end.

Definition new_rules (student_ids : list Z) (rows : list RuleRow.t) : list Rule.t :=
  omap (clean_rule student_ids) rows.

(** [sc.must_be_adjacent_to.add(x)] and [sc.must_not_adjacent_to.add(x)] *)
Definition add_must_be (x : Z) (sc : StudentConstraint.t) : StudentConstraint.t :=
  StudentConstraint.mk (StudentConstraint.id sc)
    (StudentConstraint.allowed_rows sc) (StudentConstraint.allowed_cols sc)
    (StudentConstraint.must_be_adjacent_to sc ∪ {[x]})
    (StudentConstraint.must_not_adjacent_to sc).

Definition add_must_not (x : Z) (sc : StudentConstraint.t) : StudentConstraint.t :=
  StudentConstraint.mk (StudentConstraint.id sc)
    (StudentConstraint.allowed_rows sc) (StudentConstraint.allowed_cols sc)
    (StudentConstraint.must_be_adjacent_to sc)
    (StudentConstraint.must_not_adjacent_to sc ∪ {[x]}).

(** The body of the loop over [adjacency_rules]. Both records are looked
    up only after the test that both keys are in [base]. *)
Definition apply_rule (base : gmap Z StudentConstraint.t) (rule : Rule.t)
    : gmap Z StudentConstraint.t :=
  let a := Rule.a rule in
  let b := Rule.b rule in
  if bool_decide (base !! a = None ∨ base !! b = None) then base
  else
    match Rule.type rule with
    | MustBeAdjacent => alter (add_must_be a) b (alter (add_must_be b) a base)
    | MustNotBeAdjacent => alter (add_must_not a) b (alter (add_must_not b) a base)
    | OtherType => base
    end.

Section parse.

(** [str.strip], [str.split(",")] and [int] are the interpreter's ([int]
    answers [None] where Python raises [ValueError]); the parser is
    modelled over whatever they compute. A cell is a string or [None]. *)
Variable str_strip : string → string.
Variable str_split : string → list string.
Variable int : string → option Z.

Definition parse_rowcol_set (value : option string) : option (gset Z) :=
  let value := str_strip (default EmptyString value) in
  if bool_decide (value = EmptyString) then None
  else
    let parts :=
      str_strip <$> filter (fun v => str_strip v ≠ EmptyString) (str_split value) in
    match mapM int parts with
    | None => None
    | Some nums =>
        let nums : gset Z := list_to_set nums in
        if bool_decide (nums = ∅) then None else Some nums
    end.

(** The record [build_constraints] first stores for a student;
    [row_map.get(sid, "")]. *)
Definition base_constraint (row_map col_map : gmap Z (option string)) (sid : Z)
    : StudentConstraint.t :=
  StudentConstraint.mk sid
    (parse_rowcol_set (default (Some EmptyString) (row_map !! sid)))
    (parse_rowcol_set (default (Some EmptyString) (col_map !! sid)))
    ∅ ∅.

(** The first loop of [build_constraints]. *)
Definition base_constraints (students : list Z)
    (row_map col_map : gmap Z (option string)) : gmap Z StudentConstraint.t :=
  foldl (fun base sid => <[sid := base_constraint row_map col_map sid]> base)
    ∅ students.

Definition build_constraints (students : list Z)
    (row_map col_map : gmap Z (option string)) (adjacency_rules : list Rule.t)
    : gmap Z StudentConstraint.t :=
  let base := base_constraints students row_map col_map in
  foldl apply_rule base adjacency_rules.

End parse.

(** Some rule of the given type names the two students, in either order. *)
Definition linked (rules : list Rule.t) (ty : rule_type) (x y : Z) : Prop :=
  ∃ rule, rule ∈ rules ∧ Rule.type rule = ty
    ∧ ((Rule.a rule = x ∧ Rule.b rule = y) ∨ (Rule.a rule = y ∧ Rule.b rule = x)).

(** ** Vocabulary for the constraint builder *)

(** What the rules have done to the record [sc] of student [x], found as
    [sc'] afterwards: the rows and columns are as they were, and the two
    relational sets have gained the students of [base] that a rule links
    [x] to. *)
Definition rule_effect (base : gmap Z StudentConstraint.t) (rules : list Rule.t)
    (x : Z) (sc sc' : StudentConstraint.t) : Prop :=
  StudentConstraint.id sc' = StudentConstraint.id sc
  ∧ StudentConstraint.allowed_rows sc' = StudentConstraint.allowed_rows sc
  ∧ StudentConstraint.allowed_cols sc' = StudentConstraint.allowed_cols sc
  ∧ (∀ y, y ∈ StudentConstraint.must_be_adjacent_to sc' ↔
          y ∈ StudentConstraint.must_be_adjacent_to sc
          ∨ (is_Some (base !! y) ∧ linked rules MustBeAdjacent x y))
  ∧ (∀ y, y ∈ StudentConstraint.must_not_adjacent_to sc' ↔
          y ∈ StudentConstraint.must_not_adjacent_to sc
          ∨ (is_Some (base !! y) ∧ linked rules MustNotBeAdjacent x y)).

Definition rules_effect (base cs : gmap Z StudentConstraint.t)
    (rules : list Rule.t) : Prop :=
  ∀ x, match base !! x, cs !! x with
       | Some sc, Some sc' => rule_effect base rules x sc sc'
       | None, None => True
       | _, _ => False
       end.

(** Whoever is named in a relational set has a record of their own that
    names the owner back, in the set of the same kind. *)
Definition mutual_constraints (cs : gmap Z StudentConstraint.t) : Prop :=
  ∀ x y scy,
    cs !! y = Some scy →
    (x ∈ StudentConstraint.must_be_adjacent_to scy →
       ∃ scx, cs !! x = Some scx ∧ y ∈ StudentConstraint.must_be_adjacent_to scx)
    ∧ (x ∈ StudentConstraint.must_not_adjacent_to scy →
         ∃ scx, cs !! x = Some scx
                ∧ y ∈ StudentConstraint.must_not_adjacent_to scx).

(** Stand-ins for the string primitives in examples: no stripping, no
    splitting, and only the string of the digit one converts. *)
Definition no_split (s : string) : list string := [s].

Definition int_one (s : string) : option Z :=
  if bool_decide (s = "1"%string) then Some 1 else None.

(** The verdict of a call of the checker ([false] when it raised). *)
Definition verdict (r : exn + (bool * State)) : bool :=
  match r with
  | inr (b, _) => b
  | inl _ => false
  end.

(** The order of Python tuples on pairs of integers: by first component,
    then by second. *)
Definition pair_le (p q : Z * Z) : Prop :=
  p.1 < q.1 ∨ (p.1 = q.1 ∧ p.2 ≤ q.2).

(** ** The interpreter's recursion limit

    [backtrack] recurses once per student, and nothing in the module
    catches the [RecursionError] that the interpreter raises when the call
    stack is full.  The definitions of this part run the solver, the
    generator and the two calls of [main] with a number of frames left:
    every call of a function written in Python ([backtrack],
    [check_partial_constraints], [is_seat_allowed_for_student],
    [constraint_score], [solve_one_assignment],
    [generate_multiple_layouts], [random.shuffle] and its helper
    [_randbelow]) takes one frame while it runs; operations on dicts, sets
    and lists take none. *)

(** How a call can end without a value: an exception raised by the code,
    or the interpreter's [RecursionError]. *)
Inductive fault := Raised (e : exn) | RecursionError.

Definition lift {A} (r : exn + A) : fault + A :=
  match r with
  | inl e => inl (Raised e)
  | inr x => inr x
  end.

(** A call with [frames] frames left: with none the call raises, otherwise
    the body runs with one frame fewer. *)
Definition call {A} (frames : nat) (body : nat → fault + A) : fault + A :=
  match frames with
  | O => inl RecursionError
  | S frames' => body frames'
  end.

Module Limited.

(** The loop that collects [candidate_seats]: [is_seat_allowed_for_student]
    is called for every seat that is not taken. *)
Fixpoint candidate_seats (frames : nat) (seats : list Seat.t)
    (sc : option StudentConstraint.t) (assigned : Dict.t) : fault + list Z :=
  match seats with
  | [] => inr []
  | seat :: seats' =>
      if bool_decide (Seat.id seat ∈ Dict.values assigned)
      then candidate_seats frames seats' sc assigned
      else
        match call frames
                (fun _ => inr (is_seat_allowed_for_student seat sc)) with
        | inl e => inl e
        | inr allowed =>
            match candidate_seats frames seats' sc assigned with
            | inl e => inl e
            | inr cands =>
                inr (if negb allowed then cands else Seat.id seat :: cands)
            end
        end
  end.

(** [random.shuffle(x)]: the call itself, and inside it one call of
    [_randbelow] for every index from [len(x) - 1] down to [1]. *)
Definition shuffle (frames : nat) (x : list Z) (g : Random.t)
    : fault + (list Z * Random.t) :=
  call frames (fun frames' =>
    if bool_decide (2 ≤ length x)%nat
    then call frames' (fun _ => inr (Random.shuffle x g))
    else inr (Random.shuffle x g)).

(** [check_partial_constraints(...)]: the call itself; the session lookup
    of line 116, which raises [KeyError] first; then the call of
    [is_seat_allowed_for_student] of line 117; the loops call nothing. *)
Definition check_partial_constraints (frames : nat) (session : SessionState)
    (student_id seat_id : Z) (use_strict_non_adjacent : bool) (σ : State)
    : fault + (bool * State) :=
  call frames (fun frames' =>
    match seat_by_id session with
    | None => inl (Raised KeyError)
    | Some table =>
        match table !! seat_id with
        | None => inl (Raised KeyError)
        | Some seat =>
            call frames' (fun _ =>
              lift (check_partial_constraints session student_id seat_id
                      use_strict_non_adjacent σ))
        end
    end).

(** [for seat_id in candidate_seats: ...] inside [backtrack(idx)]; [next]
    is the call [backtrack(idx + 1)]. *)
Fixpoint try_candidates (frames : nat) (session : SessionState)
    (next : State → fault + (bool * State))
    (sid : Z) (use_strict_non_adjacent : bool)
    (cands : list Z) (σ : State) : fault + (bool * State) :=
  match cands with
  | [] => inr (false, σ)
  | seat_id :: cands' =>
      match check_partial_constraints frames session sid seat_id
              use_strict_non_adjacent σ with
      | inl e => inl e
      | inr (false, σ1) =>
          try_candidates frames session next sid use_strict_non_adjacent
            cands' σ1
      | inr (true, σ1) =>
          let σ2 := with_assignments σ1 (Dict.set (assignments σ1) sid seat_id) in
          match next σ2 with
          | inl e => inl e
          | inr (true, σ3) => inr (true, σ3)
          | inr (false, σ3) =>
              match Dict.del (assignments σ3) sid with
              | None => inl (Raised KeyError)
              | Some d =>
                  try_candidates frames session next sid
                    use_strict_non_adjacent cands' (with_assignments σ3 d)
              end
          end
      end
  end.

(** The body of [backtrack(idx)], on [rest = students_sorted[idx:]], with
    [frames] frames left for the calls it makes. *)
Fixpoint backtrack (frames : nat) (session : SessionState)
    (seats : list Seat.t) (use_strict_non_adjacent : bool) (rest : list Z)
    (σ : State) {struct rest} : fault + (bool * State) :=
  match rest with
  | [] => inr (true, σ)
  | sid :: rest' =>
      let sc := constraints σ !! sid in
      match candidate_seats frames seats sc (assignments σ) with
      | inl e => inl e
      | inr cands =>
          match shuffle frames cands (gen σ) with
          | inl e => inl e
          | inr (cands, g) =>
              try_candidates frames session
                (fun σ' =>
                   call frames (fun frames' =>
                     backtrack frames' session seats use_strict_non_adjacent
                       rest' σ'))
                sid use_strict_non_adjacent cands (with_gen σ g)
          end
      end
  end.

(** The body of [solve_one_assignment].  The calls of [constraint_score]
    that [sorted] makes need one frame, as the call [backtrack(0)] does,
    which is made whatever the list. *)
Definition solve_one_assignment (frames : nat) (session : SessionState)
    (students : list Z) (seats : list Seat.t)
    (use_strict_non_adjacent : bool) (σ : State)
    : fault + (option Dict.t * State) :=
  let students_sorted :=
    sorted_reverse (constraint_score (constraints σ)) students in
  let σ0 := with_assignments σ [] in
  match call frames (fun frames' =>
          backtrack frames' session seats use_strict_non_adjacent
            students_sorted σ0) with
  | inl e => inl e
  | inr (ok, σ') => inr (if ok then Some (assignments σ') else None, σ')
  end.

(** The [while] loop of [generate_multiple_layouts]. *)
Fixpoint generate_loop (frames fuel : nat) (session : SessionState)
    (num_layouts max_attempts : Z) (students : nat) (seats : list Seat.t)
    (use_strict_non_adjacent : bool) (w : Loop) (σ : State)
    : option (fault + (Loop * State)) :=
  if loop_condition num_layouts max_attempts w
  then
    match fuel with
    | O => None
    | S fuel' =>
        let w1 := count_attempt w in
        match shuffle frames (list_at students σ) (gen σ) with
        | inl e => Some (inl e)
        | inr _ =>
            let σ1 := random_shuffle students σ in
            match call frames (fun frames' =>
                    solve_one_assignment frames' session (list_at students σ1)
                      seats use_strict_non_adjacent σ1) with
            | inl e => Some (inl e)
            | inr (result, σ2) =>
                generate_loop frames fuel' session num_layouts max_attempts
                  students seats use_strict_non_adjacent
                  (record_result w1 result) σ2
            end
        end
    end
  else Some (inr (w, σ)).

(** The body of [generate_multiple_layouts]. *)
Definition generate_multiple_layouts (frames : nat) (session : SessionState)
    (num_layouts : Z) (students : nat) (seats : list Seat.t)
    (use_strict_non_adjacent : bool) (σ : State)
    : option (fault + (Loop * State)) :=
  let max_attempts := num_layouts * 30 in
  generate_loop frames (Z.to_nat max_attempts) session num_layouts
    max_attempts students seats use_strict_non_adjacent (mkLoop [] ∅ 0 []) σ.

(** The two calls of [main], with [frames] frames left in [main]. *)
Definition main_generate (frames : nat) (session : SessionState)
    (num_layouts : Z) (student_ids : nat) (seats : list Seat.t) (σ : State)
    : option (fault + (list Dict.t * State)) :=
  match frames with
  | O => Some (inl RecursionError)
  | S frames' =>
      let '(students, σ1) := list_copy student_ids σ in
      match generate_multiple_layouts frames' session num_layouts students
              seats true σ1 with
      | None => None
      | Some (inl e) => Some (inl e)
      | Some (inr (w, σ2)) =>
          match layouts w with
          | _ :: _ => Some (inr (layouts w, σ2))
          | [] =>
              let '(students, σ3) := list_copy student_ids σ2 in
              match generate_multiple_layouts frames' session num_layouts
                      students seats false σ3 with
              | None => None
              | Some (inl e) => Some (inl e)
              | Some (inr (w, σ4)) => Some (inr (layouts w, σ4))
              end
          end
      end
  end.

End Limited.


(** * Properties *)

(** ** Lemmas on [defaultdict] *)

Lemma read_touch d k k' : DefaultDict.read (DefaultDict.touch d k) k' = DefaultDict.read d k'.
Proof.
  unfold DefaultDict.read, DefaultDict.touch.
  destruct (d !! k) eqn:E; [done|].
  destruct (decide (k = k')) as [->|Hne].
  - by rewrite lookup_insert_eq, E.
  - by rewrite lookup_insert_ne.
Qed.

Lemma elem_of_read_add d k v k' v' :
  v' ∈ DefaultDict.read (DefaultDict.add d k v) k'
  ↔ v' ∈ DefaultDict.read d k' ∨ (k' = k ∧ v' = v).
Proof.
  unfold DefaultDict.add.
  destruct (decide (k = k')) as [->|Hne].
  - unfold DefaultDict.read at 1. rewrite lookup_insert_eq. simpl. set_solver.
  - unfold DefaultDict.read at 1. rewrite lookup_insert_ne by done.
    fold (DefaultDict.read (DefaultDict.touch d k) k'). rewrite read_touch.
    naive_solver.
Qed.

Section adjacency.

(** What one pass of the inner loop adds to the two maps. *)
Lemma adjacency_step_lr s1 s2 acc x y :
  y ∈ DefaultDict.read (adjacency_step s1 s2 acc).1 x
  ↔ y ∈ DefaultDict.read acc.1 x
    ∨ (Seat.id s1 = x ∧ Seat.id s2 = y ∧ x ≠ y ∧ left_right s1 s2).
Proof.
  unfold adjacency_step, left_right.
  destruct (Z.eqb_spec (Seat.id s1) (Seat.id s2)) as [Heq|Hne]; [naive_solver|].
  simpl.
  destruct (Z.eqb_spec (Z.abs (Seat.row s1 - Seat.row s2)) 0) as [Hr|Hr];
    destruct (Z.eqb_spec (Z.abs (Seat.col s1 - Seat.col s2)) 1) as [Hc|Hc];
    simpl; rewrite ?elem_of_read_add; naive_solver.
Qed.

Lemma adjacency_step_9 s1 s2 acc x y :
  y ∈ DefaultDict.read (adjacency_step s1 s2 acc).2 x
  ↔ y ∈ DefaultDict.read acc.2 x
    ∨ (Seat.id s1 = x ∧ Seat.id s2 = y ∧ x ≠ y ∧ nine_box s1 s2).
Proof.
  unfold adjacency_step, nine_box.
  destruct (Z.eqb_spec (Seat.id s1) (Seat.id s2)) as [Heq|Hne]; [naive_solver|].
  simpl.
  destruct (Z.leb_spec (Z.abs (Seat.row s1 - Seat.row s2)) 1) as [Hr|Hr];
    destruct (Z.leb_spec (Z.abs (Seat.col s1 - Seat.col s2)) 1) as [Hc|Hc];
    simpl; rewrite ?elem_of_read_add; naive_solver lia.
Qed.

(** The inner loop, for a fixed [s1]. *)
Lemma inner_loop_spec (R : Seat.t → Seat.t → Prop)
    (proj : DefaultDict.t * DefaultDict.t → DefaultDict.t) s1 :
  (∀ s2 acc x y,
     y ∈ DefaultDict.read (proj (adjacency_step s1 s2 acc)) x
     ↔ y ∈ DefaultDict.read (proj acc) x
       ∨ (Seat.id s1 = x ∧ Seat.id s2 = y ∧ x ≠ y ∧ R s1 s2)) →
  ∀ l acc x y,
    y ∈ DefaultDict.read
          (proj (foldl (fun acc s2 => adjacency_step s1 s2 acc) acc l)) x
    ↔ y ∈ DefaultDict.read (proj acc) x
      ∨ (∃ s2, s2 ∈ l ∧ Seat.id s1 = x ∧ Seat.id s2 = y ∧ x ≠ y ∧ R s1 s2).
Proof.
  intros Hstep l. induction l as [|s2 l IH]; intros acc x y; simpl.
  - split; [by left|]. intros [?|(s2 & Hin & _)]; [done|]. by apply elem_of_nil in Hin.
  - rewrite IH, Hstep. split.
    + intros [[?|?]|(s & Hin & ?)]; [by left| |].
      * right. exists s2. split; [left|]; done.
      * right. exists s. split; [by right|done].
    + intros [?|(s & Hin & ?)]; [by left; left|].
      apply elem_of_cons in Hin as [->|Hin]; [left; by right|].
      right. by exists s.
Qed.

(** The outer loop, over a prefix [l1] of the seats, with the inner loop
    running on all of [l2]. *)
Lemma outer_loop_spec (R : Seat.t → Seat.t → Prop)
    (proj : DefaultDict.t * DefaultDict.t → DefaultDict.t) :
  (∀ s1 s2 acc x y,
     y ∈ DefaultDict.read (proj (adjacency_step s1 s2 acc)) x
     ↔ y ∈ DefaultDict.read (proj acc) x
       ∨ (Seat.id s1 = x ∧ Seat.id s2 = y ∧ x ≠ y ∧ R s1 s2)) →
  ∀ l2 l1 acc x y,
    y ∈ DefaultDict.read
          (proj (foldl (fun acc s1 =>
                          foldl (fun acc s2 => adjacency_step s1 s2 acc) acc l2)
                       acc l1)) x
    ↔ y ∈ DefaultDict.read (proj acc) x
      ∨ (∃ s1 s2, s1 ∈ l1 ∧ s2 ∈ l2
                  ∧ Seat.id s1 = x ∧ Seat.id s2 = y ∧ x ≠ y ∧ R s1 s2).
Proof.
  intros Hstep l2 l1. induction l1 as [|s1 l1 IH]; intros acc x y; simpl.
  - split; [by left|]. intros [?|(s1 & s2 & Hin & _)]; [done|].
    by apply elem_of_nil in Hin.
  - rewrite IH, (inner_loop_spec R proj s1 (Hstep s1)). split.
    + intros [[?|(s2 & ? & ?)]|(s & s2 & Hin & ?)]; [by left| |].
      * right. exists s1, s2. split; [left|]; done.
      * right. exists s, s2. split; [by right|done].
    + intros [?|(s & s2 & Hin & ?)]; [by left; left|].
      apply elem_of_cons in Hin as [->|Hin].
      * left; right. by exists s2.
      * right. by exists s, s2.
Qed.

End adjacency.

(** ** The adjacency index, characterised *)

Lemma build_adjacency_maps_lr seats x y :
  y ∈ DefaultDict.read (build_adjacency_maps seats).1 x
  ↔ ∃ s1 s2, s1 ∈ seats ∧ s2 ∈ seats
             ∧ Seat.id s1 = x ∧ Seat.id s2 = y ∧ x ≠ y ∧ left_right s1 s2.
Proof.
  unfold build_adjacency_maps.
  rewrite (outer_loop_spec left_right fst adjacency_step_lr).
  unfold DefaultDict.read. simpl. rewrite lookup_empty. simpl.
  split; [intros [H|H]; [by apply not_elem_of_empty in H|done]|by right].
Qed.

Lemma build_adjacency_maps_9 seats x y :
  y ∈ DefaultDict.read (build_adjacency_maps seats).2 x
  ↔ ∃ s1 s2, s1 ∈ seats ∧ s2 ∈ seats
             ∧ Seat.id s1 = x ∧ Seat.id s2 = y ∧ x ≠ y ∧ nine_box s1 s2.
Proof.
  unfold build_adjacency_maps.
  rewrite (outer_loop_spec nine_box snd adjacency_step_9).
  unfold DefaultDict.read. simpl. rewrite lookup_empty. simpl.
  split; [intros [H|H]; [by apply not_elem_of_empty in H|done]|by right].
Qed.

Lemma left_right_sym s1 s2 : left_right s1 s2 → left_right s2 s1.
Proof. unfold left_right. lia. Qed.

Lemma nine_box_sym s1 s2 : nine_box s1 s2 → nine_box s2 s1.
Proof. unfold nine_box. lia. Qed.

(** ** Lemmas on [dict] *)

Lemma dict_get_to_map (d : Dict.t) k : Dict.get d k = Dict.to_map d !! k.
Proof.
  unfold Dict.to_map. induction d as [|[k' v] d IH]; simpl; [by rewrite lookup_empty|].
  case_decide as Hk.
  - subst. by rewrite lookup_insert_eq.
  - by rewrite lookup_insert_ne.
Qed.

Lemma dict_to_map_set (d : Dict.t) k v :
  Dict.to_map (Dict.set d k v) = <[k := v]> (Dict.to_map d).
Proof.
  unfold Dict.to_map. induction d as [|[k' v'] d IH]; simpl; [done|].
  case_decide as Hk; simpl.
  - subst. by rewrite insert_insert_eq.
  - rewrite IH. by apply insert_insert_ne.
Qed.

Lemma dict_keys_set (d : Dict.t) k v k' :
  k' ∈ Dict.keys (Dict.set d k v) ↔ k' = k ∨ k' ∈ Dict.keys d.
Proof.
  unfold Dict.keys. induction d as [|[k0 v0] d IH]; simpl.
  - rewrite list_elem_of_singleton, elem_of_nil. naive_solver.
  - case_decide; simpl; rewrite ?elem_of_cons, ?IH; naive_solver.
Qed.

Lemma dict_set_NoDup (d : Dict.t) k v :
  NoDup (Dict.keys d) → NoDup (Dict.keys (Dict.set d k v)).
Proof.
  unfold Dict.keys. induction d as [|[k0 v0] d IH]; simpl; intros Hnd.
  - apply NoDup_singleton.
  - apply NoDup_cons in Hnd as [Hk0 Hnd]. case_decide as Hk; simpl.
    + subst. by apply NoDup_cons.
    + apply NoDup_cons. split; [|by apply IH].
      intros Hin. apply (dict_keys_set d k v k0) in Hin. naive_solver.
Qed.

Lemma dict_del_is_Some (d : Dict.t) k :
  is_Some (Dict.del d k) ↔ k ∈ Dict.keys d.
Proof.
  unfold Dict.keys. induction d as [|[k0 v0] d IH]; simpl.
  - rewrite elem_of_nil. split; [by intros [? ?]|done].
  - rewrite elem_of_cons. case_decide as Hk.
    + split; [by left|by eexists].
    + destruct (Dict.del d k) as [d'|].
      * split; [intros _; right; by apply IH|by eexists].
      * split; [by intros [? ?]|].
        intros [?|Hin]; [done|]. by apply IH in Hin as [? ?].
Qed.

Lemma dict_del_spec (d d' : Dict.t) k :
  NoDup (Dict.keys d) → Dict.del d k = Some d' →
  Dict.to_map d' = delete k (Dict.to_map d) ∧ NoDup (Dict.keys d').
Proof.
  unfold Dict.keys, Dict.to_map. revert d'.
  induction d as [|[k0 v0] d IH]; simpl; intros d' Hnd Hdel; [done|].
  apply NoDup_cons in Hnd as [Hk0 Hnd]. case_decide as Hk.
  - simplify_eq. split; [|done].
    rewrite delete_insert_eq. symmetry. apply delete_id.
    by apply not_elem_of_list_to_map_1.
  - destruct (Dict.del d k) as [d''|] eqn:E; [|done]. simplify_eq.
    destruct (IH d'' Hnd eq_refl) as [Hm Hnd']. simpl. split.
    + rewrite Hm. by rewrite delete_insert_ne.
    + apply NoDup_cons. split; [|done].
      intros Hin. apply Hk0.
      apply dec_stable. intros Hn.
      apply not_elem_of_list_to_map_1 in Hn.
      apply not_elem_of_list_to_map_2 with (l := d'') in Hin; [done|].
      rewrite Hm. by rewrite lookup_delete_ne.
Qed.

Lemma dict_keys_to_map (d : Dict.t) k :
  k ∈ Dict.keys d ↔ is_Some (Dict.to_map d !! k).
Proof.
  unfold Dict.keys, Dict.to_map. split.
  - intros Hin. apply not_eq_None_Some. intros Hn.
    by apply not_elem_of_list_to_map_2 in Hn.
  - intros Hs. apply dec_stable. intros Hn.
    apply not_elem_of_list_to_map_1 in Hn. rewrite Hn in Hs. by destruct Hs.
Qed.

Lemma dict_values_to_map (d : Dict.t) v :
  NoDup (Dict.keys d) →
  v ∈ Dict.values d ↔ ∃ k, Dict.to_map d !! k = Some v.
Proof.
  unfold Dict.keys, Dict.values, Dict.to_map. intros Hnd.
  rewrite list_elem_of_fmap. split.
  - intros ([k v'] & -> & Hin). exists k. by apply elem_of_list_to_map_1.
  - intros (k & Hk). exists (k, v). split; [done|]. by apply elem_of_list_to_map_2.
Qed.

(** ** [random.shuffle] permutes *)

Lemma swap_Permutation x i j : Random.swap x i j ≡ₚ x.
Proof.
  unfold Random.swap.
  destruct (x !! i) as [a|] eqn:Hi; [|done].
  destruct (x !! j) as [b|] eqn:Hj; [|done].
  by apply Permutation_insert_swap.
Qed.

Lemma shuffle_from_Permutation i x g : (Random.shuffle_from i x g).1 ≡ₚ x.
Proof.
  revert x g. induction i as [|i IH]; intros x g; simpl; [done|].
  destruct (Random.randbelow (S (S i)) g) as [j g'].
  rewrite IH. apply swap_Permutation.
Qed.

Lemma shuffle_Permutation x g : (Random.shuffle x g).1 ≡ₚ x.
Proof. apply shuffle_from_Permutation. Qed.

(** ** The frame of the checker *)

Lemma grown_refl d : grown d d.
Proof. intros k. by left. Qed.

Lemma grown_trans d1 d2 d3 : grown d1 d2 → grown d2 d3 → grown d1 d3.
Proof.
  intros H12 H23 k. destruct (H12 k) as [E|[E1 E2]], (H23 k) as [F|[F1 F2]].
  - left. congruence.
  - right. split; congruence.
  - right. split; congruence.
  - congruence.
Qed.

Lemma grown_touch d k : grown d (DefaultDict.touch d k).
Proof.
  intros k'. unfold DefaultDict.touch. destruct (d !! k) eqn:E; [by left|].
  destruct (decide (k = k')) as [->|Hne].
  - right. by rewrite lookup_insert_eq.
  - left. by rewrite lookup_insert_ne.
Qed.

Lemma grown_read d d' k : grown d d' → DefaultDict.read d' k = DefaultDict.read d k.
Proof.
  intros H. unfold DefaultDict.read. destruct (H k) as [->|[-> ->]]; done.
Qed.

Lemma check_frame_refl σ : check_frame σ σ.
Proof. repeat split; auto using grown_refl. Qed.

Lemma check_frame_trans σ1 σ2 σ3 :
  check_frame σ1 σ2 → check_frame σ2 σ3 → check_frame σ1 σ3.
Proof.
  intros (?&?&?&?&?&?) (?&?&?&?&?&?).
  repeat split; try congruence; eauto using grown_trans.
Qed.

Lemma lr_get_frame k σ : check_frame σ (lr_get k σ).2.
Proof. repeat split; simpl; auto using grown_refl, grown_touch. Qed.

Lemma box_get_frame k σ : check_frame σ (box_get k σ).2.
Proof. repeat split; simpl; auto using grown_refl, grown_touch. Qed.

Lemma check_frame_forbidden_zone strict σ σ' k :
  check_frame σ σ' → forbidden_zone strict σ' k = forbidden_zone strict σ k.
Proof.
  intros (?&?&?&?&?&?). unfold forbidden_zone.
  destruct strict; by apply grown_read.
Qed.

Lemma check_frame_read_lr σ σ' k :
  check_frame σ σ' →
  DefaultDict.read (adjacent_lr σ') k = DefaultDict.read (adjacent_lr σ) k.
Proof. intros (?&?&?&?&?&?). by apply grown_read. Qed.

(** The set looked up for a forbidden neighbour, and the state after. *)
Lemma forbidden_get (strict : bool) k σ :
  ∃ σ', (if strict then box_get k σ else lr_get k σ)
        = (forbidden_zone strict σ k, σ')
        ∧ check_frame σ σ'.
Proof.
  destruct strict; eexists; (split; [reflexivity|]).
  - apply box_get_frame.
  - apply lr_get_frame.
Qed.

Lemma must_be_loop_spec others seat_id σ b σ' :
  must_be_loop others seat_id σ = (b, σ') →
  check_frame σ σ'
  ∧ (b = true ↔
     ∀ other other_seat,
       other ∈ others → Dict.get (assignments σ) other = Some other_seat →
       other_seat ∈ DefaultDict.read (adjacent_lr σ) seat_id).
Proof.
  revert σ. induction others as [|other others IH]; intros σ; simpl.
  - intros [= <- <-]. split; [apply check_frame_refl|].
    split; [|done]. intros _ ? ? Hin. by apply elem_of_nil in Hin.
  - destruct (Dict.get (assignments σ) other) as [other_seat|] eqn:Hget.
    + case_bool_decide as Hmem.
      * intros Hloop. apply IH in Hloop as [Hfr Hb].
        pose proof (lr_get_frame seat_id σ) as Hfr0. simpl in Hfr0.
        split; [by eapply check_frame_trans|].
        rewrite Hb. simpl.
        split.
        -- intros H o os [->|Hin]%elem_of_cons Hg; [congruence|].
           specialize (H o os Hin Hg). by rewrite read_touch in H.
        -- intros H o os Hin Hg. rewrite read_touch. apply (H o os); [by right|done].
      * intros [= <- <-]. split; [apply lr_get_frame|].
        split; [done|]. intros H. destruct Hmem. apply (H other other_seat); [by left|done].
    + intros Hloop. apply IH in Hloop as [Hfr Hb]. split; [done|].
      rewrite Hb. split.
      * intros H o os [->|Hin]%elem_of_cons Hg; [congruence|]. by apply (H o os).
      * intros H o os Hin Hg. apply (H o os); [by right|done].
Qed.

Lemma must_not_loop_spec others seat_id strict σ b σ' :
  must_not_loop others seat_id strict σ = (b, σ') →
  check_frame σ σ'
  ∧ (b = true ↔
     ∀ other other_seat,
       other ∈ others → Dict.get (assignments σ) other = Some other_seat →
       other_seat ∉ forbidden_zone strict σ seat_id).
Proof.
  revert σ. induction others as [|other others IH]; intros σ; simpl.
  - intros [= <- <-]. split; [apply check_frame_refl|].
    split; [|done]. intros _ ? ? Hin. by apply elem_of_nil in Hin.
  - destruct (Dict.get (assignments σ) other) as [other_seat|] eqn:Hget.
    + destruct (forbidden_get strict seat_id σ) as (σ1 & -> & Hfr0).
      case_bool_decide as Hmem.
      * intros [= <- <-]. split; [done|].
        split; [done|]. intros H. exfalso.
        apply (H other other_seat); [by left|done|done].
      * intros Hloop. apply IH in Hloop as [Hfr Hb].
        split; [by eapply check_frame_trans|].
        rewrite Hb. pose proof Hfr0 as (_&Ha&_). rewrite Ha.
        rewrite (check_frame_forbidden_zone strict σ σ1 seat_id Hfr0).
        split.
        -- intros H o os [->|Hin]%elem_of_cons Hg; [congruence|]. by apply (H o).
        -- intros H o os Hin Hg. apply (H o); [by right|done].
    + intros Hloop. apply IH in Hloop as [Hfr Hb]. split; [done|].
      rewrite Hb. split.
      * intros H o os [->|Hin]%elem_of_cons Hg; [congruence|]. by apply (H o).
      * intros H o os Hin Hg. apply (H o); [by right|done].
Qed.

Lemma reverse_step_must_be sid seat_id other_seat osc σ0 σ :
  check_frame σ0 σ →
  ∃ σ1,
    (if bool_decide (sid ∈ StudentConstraint.must_be_adjacent_to osc)
     then let '(nbrs, σ') := lr_get seat_id σ in
          (bool_decide (other_seat ∈ nbrs), σ')
     else (true, σ))
    = (bool_decide (sid ∈ StudentConstraint.must_be_adjacent_to osc →
                    other_seat ∈ DefaultDict.read (adjacent_lr σ0) seat_id), σ1)
    ∧ check_frame σ0 σ1.
Proof.
  intros Hfr. case_bool_decide as Hin.
  - exists (lr_get seat_id σ).2. simpl. split.
    + f_equal. rewrite (check_frame_read_lr σ0 σ seat_id Hfr).
      apply bool_decide_ext. naive_solver.
    + eapply check_frame_trans; [done|]. apply lr_get_frame.
  - exists σ. split; [|done]. f_equal. symmetry. apply bool_decide_eq_true. naive_solver.
Qed.

Lemma reverse_step_must_not sid seat_id other_seat (strict : bool) osc σ0 σ :
  check_frame σ0 σ →
  ∃ σ1,
    (if bool_decide (sid ∈ StudentConstraint.must_not_adjacent_to osc)
     then let '(nbrs, σ') :=
            if strict then box_get other_seat σ else lr_get other_seat σ in
          (negb (bool_decide (seat_id ∈ nbrs)), σ')
     else (true, σ))
    = (bool_decide (sid ∈ StudentConstraint.must_not_adjacent_to osc →
                    seat_id ∉ forbidden_zone strict σ0 other_seat), σ1)
    ∧ check_frame σ0 σ1.
Proof.
  intros Hfr. case_bool_decide as Hin.
  - destruct (forbidden_get strict other_seat σ) as (σ1 & -> & Hfr1).
    exists σ1. split; [|by eapply check_frame_trans].
    f_equal. rewrite (check_frame_forbidden_zone strict σ0 σ other_seat Hfr).
    rewrite <- bool_decide_not. apply bool_decide_ext. naive_solver.
  - exists σ. split; [|done]. f_equal. symmetry. apply bool_decide_eq_true. naive_solver.
Qed.

Lemma reverse_loop_spec items sid seat_id strict σ0 σ b σ' :
  check_frame σ0 σ →
  reverse_loop items sid seat_id strict σ = (b, σ') →
  check_frame σ0 σ'
  ∧ (b = true ↔
     ∀ other other_seat osc,
       (other, other_seat) ∈ items → constraints σ0 !! other = Some osc →
       (sid ∈ StudentConstraint.must_be_adjacent_to osc →
          other_seat ∈ DefaultDict.read (adjacent_lr σ0) seat_id)
       ∧ (sid ∈ StudentConstraint.must_not_adjacent_to osc →
            seat_id ∉ forbidden_zone strict σ0 other_seat)).
Proof.
  revert σ. induction items as [|[other other_seat] items IH]; intros σ Hfr;
    cbn [reverse_loop].
  - intros [= <- <-]. split; [done|]. split; [|done].
    intros _ ? ? ? Hin. by apply elem_of_nil in Hin.
  - assert (Hc : constraints σ = constraints σ0) by apply Hfr. rewrite Hc.
    destruct (constraints σ0 !! other) as [osc|] eqn:Hosc.
    + destruct (reverse_step_must_be sid seat_id other_seat osc σ0 σ Hfr)
        as (σ1 & -> & Hfr1).
      case_bool_decide as H1; simpl.
      * destruct (reverse_step_must_not sid seat_id other_seat strict osc σ0 σ1 Hfr1)
          as (σ2 & -> & Hfr2).
        case_bool_decide as H2; simpl.
        -- intros Hloop. apply IH in Hloop as [Hfr' Hb]; [|done].
           split; [done|]. rewrite Hb. split.
           ++ intros H o s c [[= -> ->]|Hin]%elem_of_cons Hco.
              ** by simplify_eq.
              ** by apply (H o s c).
           ++ intros H o s c Hin Hco. apply (H o s c); [by right|done].
        -- intros [= <- <-]. split; [done|]. split; [done|].
           intros H. destruct H2. apply (H other other_seat osc); [by left|done].
      * intros [= <- <-]. split; [done|]. split; [done|].
        intros H. destruct H1. apply (H other other_seat osc); [by left|done].
    + intros Hloop. apply IH in Hloop as [Hfr' Hb]; [|done].
      split; [done|]. rewrite Hb. split.
      * intros H o s c [[= -> ->]|Hin]%elem_of_cons Hco; [congruence|].
        by apply (H o s c).
      * intros H o s c Hin Hco. apply (H o s c); [by right|done].
Qed.

(** The forward part of the checker: the two loops over the student's own
    relational sets. *)
Lemma outgoing_loops_spec sc seat_id strict σ b σ' :
  (let '(ok, σ1) :=
     must_be_loop (elements (StudentConstraint.must_be_adjacent_to sc)) seat_id σ in
   if negb ok then (false, σ1)
   else must_not_loop (elements (StudentConstraint.must_not_adjacent_to sc))
          seat_id strict σ1) = (b, σ') →
  check_frame σ σ'
  ∧ (b = true ↔
     ∀ other other_seat,
       Dict.get (assignments σ) other = Some other_seat →
       (other ∈ StudentConstraint.must_be_adjacent_to sc →
          other_seat ∈ DefaultDict.read (adjacent_lr σ) seat_id)
       ∧ (other ∈ StudentConstraint.must_not_adjacent_to sc →
            other_seat ∉ forbidden_zone strict σ seat_id)).
Proof.
  destruct (must_be_loop _ seat_id σ) as [ok σ1] eqn:E1.
  apply must_be_loop_spec in E1 as [Hfr1 Hb1].
  destruct ok; simpl.
  - intros E2. apply must_not_loop_spec in E2 as [Hfr2 Hb2].
    split; [by eapply check_frame_trans|].
    rewrite Hb2. pose proof Hfr1 as (_&Ha&_). rewrite Ha.
    rewrite (check_frame_forbidden_zone strict σ σ1 seat_id Hfr1).
    destruct Hb1 as [Hb1 _]. specialize (Hb1 eq_refl). split.
    + intros H o os Hg. split.
      * intros Hin. apply (Hb1 o os); [by apply elem_of_elements|done].
      * intros Hin. apply (H o os); [by apply elem_of_elements|done].
    + intros H o os Hin Hg. apply (H o os Hg). by apply elem_of_elements in Hin.
  - intros [= <- <-]. split; [done|]. split; [done|].
    intros H. apply Hb1. intros o os Hin Hg.
    apply (H o os Hg). by apply elem_of_elements in Hin.
Qed.

Lemma check_partial_constraints_raises session sid seat_id strict σ e :
  check_partial_constraints session sid seat_id strict σ = inl e
  ↔ session_seat session seat_id = None.
Proof.
  unfold check_partial_constraints, session_seat.
  destruct (seat_by_id session) as [table|]; [|by destruct e].
  destruct (table !! seat_id) as [seat|]; [|by destruct e].
  destruct (negb _); [done|].
  destruct (match constraints σ !! sid with Some _ => _ | None => _ end) as [ok σ1].
  destruct (negb ok); [done|]. by destruct (reverse_loop _ _ _ _ _).
Qed.

Lemma check_partial_constraints_spec session sid seat_id strict σ b σ' :
  check_partial_constraints session sid seat_id strict σ = inr (b, σ') →
  check_frame σ σ' ∧ (b = true ↔ placement_ok session sid seat_id strict σ).
Proof.
  unfold check_partial_constraints, placement_ok, positional_ok, outgoing_ok,
    incoming_ok, session_seat.
  destruct (seat_by_id session) as [table|]; [|done].
  destruct (table !! seat_id) as [seat|]; [|done].
  destruct (is_seat_allowed_for_student seat (constraints σ !! sid)) eqn:Hallowed;
    simpl.
  2:{ intros [= <- <-]. split; [apply check_frame_refl|]. split; [done|].
      intros [(seat' & [= <-] & Hs) _]. congruence. }
  destruct (constraints σ !! sid) as [sc|] eqn:Hsc.
  - destruct (let '(ok, σ1) := must_be_loop _ seat_id σ in _) as [ok σ1] eqn:E.
    apply outgoing_loops_spec in E as [Hfr1 Hb1].
    destruct ok; simpl.
    + destruct (reverse_loop _ sid seat_id strict σ1) as [b' σ2] eqn:E2.
      intros [= <- <-].
      pose proof Hfr1 as (_&Ha&_).
      apply (reverse_loop_spec _ sid seat_id strict σ σ1) in E2 as [Hfr2 Hb2];
        [|done].
      split; [done|]. rewrite Hb2, Ha. destruct Hb1 as [Hb1 _].
      specialize (Hb1 eq_refl). split.
      * intros H. split; [by exists seat|]. split; [|done].
        intros sc' o os [= <-] Hg. by apply Hb1.
      * intros (_ & _ & H). done.
    + intros [= <- <-]. split; [done|]. split; [done|].
      intros (_ & H & _). apply Hb1. intros o os Hg. by apply (H sc).
  - destruct (reverse_loop _ sid seat_id strict σ) as [b' σ2] eqn:E2.
    intros [= <- <-].
    apply (reverse_loop_spec _ sid seat_id strict σ σ) in E2 as [Hfr2 Hb2];
      [|apply check_frame_refl].
    split; [done|]. rewrite Hb2. split.
    + intros H. split; [by exists seat|]. split; [|done]. by intros sc' o os.
    + intros (_ & _ & H). done.
Qed.

Lemma check_partial_constraints_returns session sid seat_id strict σ :
  is_Some (session_seat session seat_id) →
  ∃ b σ', check_partial_constraints session sid seat_id strict σ = inr (b, σ').
Proof.
  intros [seat Hs].
  destruct (check_partial_constraints session sid seat_id strict σ)
    as [e|[b σ']] eqn:E; [|by eauto].
  apply check_partial_constraints_raises in E. congruence.
Qed.

(** ** Invariants of the search *)

Lemma solver_frame_refl σ : solver_frame σ σ.
Proof. repeat split; auto using grown_refl. Qed.

Lemma solver_frame_trans σ1 σ2 σ3 :
  solver_frame σ1 σ2 → solver_frame σ2 σ3 → solver_frame σ1 σ3.
Proof.
  intros (?&?&?&?) (?&?&?&?).
  repeat split; try congruence; eauto using grown_trans.
Qed.

Lemma check_frame_solver_frame σ σ' : check_frame σ σ' → solver_frame σ σ'.
Proof. intros (?&?&?&?&?&?). by repeat split. Qed.

Lemma solver_frame_read_lr σ σ' k :
  solver_frame σ σ' →
  DefaultDict.read (adjacent_lr σ') k = DefaultDict.read (adjacent_lr σ) k.
Proof. intros (?&?&?&?). by apply grown_read. Qed.

Lemma solver_frame_forbidden_zone strict σ σ' k :
  solver_frame σ σ' → forbidden_zone strict σ' k = forbidden_zone strict σ k.
Proof.
  intros (?&?&?&?). unfold forbidden_zone. destruct strict; by apply grown_read.
Qed.

Lemma solver_frame_with_assignments σ d : solver_frame σ (with_assignments σ d).
Proof. repeat split; auto using grown_refl. Qed.

Lemma solver_frame_with_gen σ g : solver_frame σ (with_gen σ g).
Proof. repeat split; auto using grown_refl. Qed.

Lemma candidate_seats_spec seats sc d c :
  c ∈ candidate_seats seats sc d →
  (c ∉ Dict.values d)
  ∧ ∃ seat, seat ∈ seats ∧ Seat.id seat = c
            ∧ is_seat_allowed_for_student seat sc = true.
Proof.
  induction seats as [|seat seats IH]; simpl; [by intros ?%elem_of_nil|].
  case_bool_decide as Hused.
  { intros H. apply IH in H as (? & s & ? & ?). split; [done|].
    exists s. by split; [right|]. }
  destruct (is_seat_allowed_for_student seat sc) eqn:Hok; simpl.
  - intros [->|Hin]%elem_of_cons.
    + split; [done|]. exists seat. by split; [left|].
    + apply IH in Hin as (? & s & ? & ?). split; [done|].
      exists s. by split; [right|].
  - intros H. apply IH in H as (? & s & ? & ?). split; [done|].
    exists s. by split; [right|].
Qed.

Lemma legal_partial_empty session seats strict σ :
  legal_partial session seats strict σ ∅.
Proof. repeat split; intros *; rewrite ?lookup_empty; done. Qed.

Lemma legal_partial_weaken session seats strict σ (m m' : gmap Z Z) :
  m' ⊆ m → legal_partial session seats strict σ m →
  legal_partial session seats strict σ m'.
Proof.
  intros Hsub (Hinj & Hpos & Hpair). repeat split.
  - intros k1 k2 v H1 H2. apply (Hinj k1 k2 v); by eapply lookup_weaken.
  - apply (Hpos a sa). by eapply lookup_weaken.
  - apply (Hpos a sa). by eapply lookup_weaken.
  - intros Hin. eapply (Hpair a sa b sb); eauto using lookup_weaken.
  - intros Hin. eapply (Hpair a sa b sb); eauto using lookup_weaken.
Qed.

Lemma positional_ok_frame session a sa σ σ' :
  constraints σ' = constraints σ →
  positional_ok session a sa σ' → positional_ok session a sa σ.
Proof. unfold positional_ok. by intros ->. Qed.

(** A placement the checker accepted extends a legal partial assignment. *)
Lemma legal_partial_insert session seats strict σ0 σ sid c :
  solver_frame σ0 σ →
  legal_partial session seats strict σ0 (amap σ) →
  (∀ k, amap σ !! k ≠ Some c) →
  seat_fits seats (constraints σ0) sid c →
  placement_ok session sid c strict σ →
  legal_partial session seats strict σ0 (<[sid := c]> (amap σ)).
Proof.
  intros Hfr (Hinj & Hpos & Hpair) Hfresh Hfits (Hp & Hout & Hin).
  pose proof Hfr as (_ & Hc & _).
  assert (Hlr : ∀ k, DefaultDict.read (adjacent_lr σ) k
                     = DefaultDict.read (adjacent_lr σ0) k)
    by (intros k; by apply solver_frame_read_lr).
  assert (Hz : ∀ k, forbidden_zone strict σ k = forbidden_zone strict σ0 k)
    by (intros k; by apply solver_frame_forbidden_zone).
  split; [|split].
  - intros k1 k2 v [[-> <-]|[Hn1 H1]]%lookup_insert_Some
                   [[-> E]|[Hn2 H2]]%lookup_insert_Some; try done.
    + by destruct (Hfresh k2).
    + subst v. by destruct (Hfresh k1).
    + by apply (Hinj k1 k2 v).
  - intros a sa [[-> <-]|[Hn H]]%lookup_insert_Some.
    + split; [done|]. by eapply positional_ok_frame.
    + by apply Hpos.
  - intros a sa b sb Hab [[-> <-]|[Hna Ha]]%lookup_insert_Some
                        [[-> <-]|[Hnb Hb]]%lookup_insert_Some; try done.
    + (* the new student's own constraints, against a placed one *)
      intros sc Hsc. rewrite <- Hc in Hsc.
      assert (Hg : Dict.get (assignments σ) b = Some sb)
        by by rewrite dict_get_to_map.
      destruct (Hout sc b sb Hsc Hg) as [Hbe Hnot]. split.
      * intros Hb'. left. rewrite <- Hlr. by apply Hbe.
      * intros Hb'. rewrite <- Hz. by apply Hnot.
    + (* a placed student's constraints, against the new one *)
      intros sc Hsc. rewrite <- Hc in Hsc.
      assert (Hel : (a, sa) ∈ assignments σ) by by apply elem_of_list_to_map_2.
      destruct (Hin a sa sc Hel Hsc) as [Hbe Hnot]. split.
      * intros Hb'. right. rewrite <- Hlr. by apply Hbe.
      * intros Hb'. rewrite <- Hz. by apply Hnot.
    + by apply Hpair.
Qed.

Lemma search_inv_check σ0 σ σ1 :
  search_inv σ0 σ → check_frame σ σ1 → search_inv σ0 σ1 ∧ amap σ1 = amap σ.
Proof.
  intros [Hfr Hnd] Hck. pose proof Hck as (_ & Ha & _). split; [split|].
  - eapply solver_frame_trans; [done|]. by apply check_frame_solver_frame.
  - by rewrite Ha.
  - unfold amap. by rewrite Ha.
Qed.

Lemma search_inv_set σ0 σ k v :
  search_inv σ0 σ →
  search_inv σ0 (with_assignments σ (Dict.set (assignments σ) k v)).
Proof.
  intros [Hfr Hnd]. split; [|by apply dict_set_NoDup].
  eapply solver_frame_trans; [done|]. apply solver_frame_with_assignments.
Qed.

Lemma search_inv_del σ0 σ k d :
  search_inv σ0 σ → Dict.del (assignments σ) k = Some d →
  search_inv σ0 (with_assignments σ d) ∧ Dict.to_map d = delete k (amap σ).
Proof.
  intros [Hfr Hnd] Hdel. destruct (dict_del_spec _ _ _ Hnd Hdel) as [Hm Hnd'].
  split; [|done]. split; [|done].
  eapply solver_frame_trans; [done|]. apply solver_frame_with_assignments.
Qed.

(** The candidate loop of one level, given what the next level guarantees. *)
Lemma try_candidates_post session seats strict σ0 sid rest' next σs :
  (∀ σ ok σ', search_inv σ0 σ → next σ = inr (ok, σ') →
              backtrack_post session seats strict σ0 rest' σ ok σ') →
  ∀ cands σ ok σ',
    search_inv σ0 σ →
    amap σ ⊆ amap σs →
    dom (amap σs) ⊆ dom (amap σ) ∪ list_to_set (sid :: rest') →
    (∀ c, c ∈ cands →
          (∀ k, amap σs !! k ≠ Some c) ∧ seat_fits seats (constraints σ0) sid c) →
    try_candidates session next sid strict cands σ = inr (ok, σ') →
    backtrack_post session seats strict σ0 (sid :: rest') σs ok σ'.
Proof.
  intros Hnext cands.
  induction cands as [|c cands IH]; intros σ ok σ' Hinv Hsub Hdom Hcands;
    cbn [try_candidates].
  - intros [= <- <-]. split; [done|]. split; [done|done].
  - destruct (check_partial_constraints session sid c strict σ)
      as [e|[b σ1]] eqn:Hck; [done|].
    apply check_partial_constraints_spec in Hck as [Hfr1 Hb].
    destruct (search_inv_check σ0 σ σ1 Hinv Hfr1) as [Hinv1 Hm1].
    assert (Hcands' : ∀ c', c' ∈ cands →
              (∀ k, amap σs !! k ≠ Some c') ∧ seat_fits seats (constraints σ0) sid c')
      by (intros c' Hc'; apply Hcands; by right).
    destruct b.
    2:{ intros Htry. apply (IH σ1 ok σ'); [done| | |done|done].
        - rewrite Hm1. exact Hsub.
        - rewrite Hm1. exact Hdom. }
    destruct Hb as [Hb _]. specialize (Hb eq_refl).
    set (σ2 := with_assignments σ1 (Dict.set (assignments σ1) sid c)).
    assert (Hinv2 : search_inv σ0 σ2) by by apply search_inv_set.
    assert (Hm2 : amap σ2 = <[sid := c]> (amap σ)).
    { rewrite <- Hm1. unfold amap, σ2. simpl. apply dict_to_map_set. }
    destruct (next σ2) as [e|[ok3 σ3]] eqn:Hn; [done|].
    apply Hnext in Hn as (Hinv3 & Hfalse & Htrue); [|done].
    destruct (Hcands c) as [Hfresh Hfits]; [by left|].
    destruct ok3.
    + intros [= <- <-]. destruct (Htrue eq_refl) as [Hdom3 Hlegal3].
      split; [done|]. split; [done|]. intros _. split.
      * rewrite Hdom3, Hm2, dom_insert_L.
        apply subseteq_dom in Hsub. rewrite list_to_set_cons in *. set_solver.
      * intros Hlegal. apply Hlegal3. rewrite Hm2.
        apply (legal_partial_insert session seats strict σ0 σ sid c);
          [apply Hinv| |  |done|done].
        -- by eapply legal_partial_weaken.
        -- intros k Hk. apply (Hfresh k). by eapply lookup_weaken.
    + destruct (Hfalse eq_refl) as [Hsub3 Hdom3].
      destruct (Dict.del (assignments σ3) sid) as [d|] eqn:Hdel; [|done].
      destruct (search_inv_del σ0 σ3 sid d Hinv3 Hdel) as [Hinv4 Hm4].
      intros Htry.
      apply (IH (with_assignments σ3 d) ok σ'); [done| | |done|done].
      * unfold amap at 1. simpl. rewrite Hm4.
        etrans; [|exact Hsub]. etrans; [by apply delete_mono|].
        rewrite Hm2, delete_insert_eq. apply delete_subseteq.
      * unfold amap at 2. simpl. rewrite Hm4, dom_delete_L.
        rewrite Hm2, dom_insert_L in Hdom3.
        rewrite list_to_set_cons in *.
        intros k Hk. apply Hdom in Hk.
        destruct (decide (k = sid)) as [->|Hne]; [set_solver|].
        assert (k ∈ dom (amap σ3) ∪ list_to_set rest') by set_solver.
        set_solver.
Qed.

Lemma backtrack_post_holds session seats strict σ0 rest :
  ∀ σ ok σ', search_inv σ0 σ →
    backtrack session seats strict rest σ = inr (ok, σ') →
    backtrack_post session seats strict σ0 rest σ ok σ'.
Proof.
  induction rest as [|sid rest' IH]; intros σ ok σ' Hinv; cbn [backtrack].
  - intros [= <- <-]. split; [done|]. split; [done|]. intros _.
    split; [|done]. simpl. set_solver.
  - destruct (Random.shuffle _ (gen σ)) as [cands g] eqn:Hsh.
    apply (try_candidates_post session seats strict σ0 sid rest' _ σ IH).
    + destruct Hinv as [Hfr Hnd]. split; [|done].
      eapply solver_frame_trans; [done|]. apply solver_frame_with_gen.
    + done.
    + set_solver.
    + intros c Hc.
      assert (Hc' : c ∈ candidate_seats seats (constraints σ !! sid) (assignments σ)).
      { pose proof (shuffle_Permutation
          (candidate_seats seats (constraints σ !! sid) (assignments σ)) (gen σ)) as Hp.
        rewrite Hsh in Hp. simpl in Hp. by rewrite <- Hp. }
      apply candidate_seats_spec in Hc' as (Hfresh & seat & Hin & Hid & Hok).
      destruct Hinv as [(_ & Hcs & _) Hnd]. split.
      * intros k Hk. apply Hfresh. apply dict_values_to_map; [done|]. by exists k.
      * exists seat. rewrite <- Hcs. done.
Qed.

(** ** The student order *)

Lemma insert_desc_Permutation key x l : insert_desc key x l ≡ₚ x :: l.
Proof.
  induction l as [|y l IH]; simpl; [done|].
  destruct (key x <? key y); [|done].
  rewrite IH. apply Permutation_swap.
Qed.

Lemma sorted_reverse_Permutation key l : sorted_reverse key l ≡ₚ l.
Proof.
  unfold sorted_reverse. induction l as [|x l IH]; simpl; [done|].
  by rewrite insert_desc_Permutation, IH.
Qed.

Lemma insert_desc_sorted key x l :
  StronglySorted (fun a b => key b ≤ key a) l →
  StronglySorted (fun a b => key b ≤ key a) (insert_desc key x l).
Proof.
  induction 1 as [|y l Hs IH Hall]; simpl.
  - repeat constructor.
  - destruct (Z.ltb_spec (key x) (key y)) as [Hlt|Hge].
    + constructor; [done|].
      rewrite insert_desc_Permutation. constructor; [lia|done].
    + constructor; [by constructor|].
      constructor; [done|].
      eapply Forall_impl; [exact Hall|]. simpl. intros z Hz. lia.
Qed.

Lemma sorted_reverse_sorted key l :
  StronglySorted (fun a b => key b ≤ key a) (sorted_reverse key l).
Proof.
  unfold sorted_reverse. induction l as [|x l IH]; simpl; [constructor|].
  by apply insert_desc_sorted.
Qed.

Lemma StronglySorted_lookup_lt {A} (R : A → A → Prop) (l : list A) i j a b :
  StronglySorted R l → (i < j)%nat →
  l !! i = Some a → l !! j = Some b → R a b.
Proof.
  intros Hs. revert i j. induction Hs as [|x l Hs IH Hall]; intros i j Hij Hi Hj.
  - by rewrite lookup_nil in Hi.
  - destruct j as [|j]; [lia|]. simpl in Hj. destruct i as [|i]; simpl in Hi.
    + simplify_eq. rewrite Forall_forall in Hall. apply Hall.
      by eapply list_elem_of_lookup_2.
    + apply (IH i j); [lia|done|done].
Qed.

(** ** The solver: what it returns, and when it returns *)

Lemma solve_one_assignment_post session students seats strict σ r σ' :
  solve_one_assignment session students seats strict σ = inr (r, σ') →
  solver_frame σ σ'
  ∧ ∀ a, r = Some a →
      NoDup (Dict.keys a)
      ∧ dom (Dict.to_map a) = list_to_set students
      ∧ legal_partial session seats strict σ (Dict.to_map a).
Proof.
  unfold solve_one_assignment.
  destruct (backtrack _ _ _ _ _) as [e|[ok σ1]] eqn:Hbt; [done|].
  intros [= <- <-].
  apply (backtrack_post_holds session seats strict σ) in Hbt
    as ([Hfr Hnd] & _ & Htrue).
  2:{ split; [apply solver_frame_with_assignments|]. simpl. constructor. }
  split; [done|]. intros a Ha. destruct ok; [|done]. simplify_eq.
  destruct (Htrue eq_refl) as [Hdom Hlegal]. split; [done|]. split.
  - unfold amap in Hdom. rewrite Hdom. simpl.
    unfold Dict.to_map. simpl. rewrite dom_empty_L, (left_id_L ∅ (∪)).
    apply set_eq. intros k. rewrite !elem_of_list_to_set.
    by rewrite sorted_reverse_Permutation.
  - apply Hlegal. apply legal_partial_empty.
Qed.

Lemma try_candidates_returns session seats strict σ0 sid rest' next :
  (∀ σ ok σ', search_inv σ0 σ → next σ = inr (ok, σ') →
              backtrack_post session seats strict σ0 rest' σ ok σ') →
  (∀ σ, search_inv σ0 σ → ∃ ok σ', next σ = inr (ok, σ')) →
  sid ∉ rest' →
  ∀ cands σ,
    (∀ c, c ∈ cands → is_Some (session_seat session c)) →
    search_inv σ0 σ →
    ∃ ok σ', try_candidates session next sid strict cands σ = inr (ok, σ').
Proof.
  intros Hpost Hret Hsid cands.
  induction cands as [|c cands IH]; intros σ Hcands Hinv; cbn [try_candidates].
  - by eauto.
  - destruct (check_partial_constraints_returns session sid c strict σ)
      as (b & σ1 & Hck); [apply Hcands; by left|].
    rewrite Hck. apply check_partial_constraints_spec in Hck as [Hfr1 _].
    destruct (search_inv_check σ0 σ σ1 Hinv Hfr1) as [Hinv1 Hm1].
    assert (Hcands' : ∀ c', c' ∈ cands → is_Some (session_seat session c'))
      by (intros c' Hc'; apply Hcands; by right).
    destruct b; [|by apply IH].
    set (σ2 := with_assignments σ1 (Dict.set (assignments σ1) sid c)).
    assert (Hinv2 : search_inv σ0 σ2) by by apply search_inv_set.
    destruct (Hret σ2 Hinv2) as (ok3 & σ3 & Hn). rewrite Hn.
    destruct ok3; [by eauto|].
    apply Hpost in Hn as (Hinv3 & Hfalse & _); [|done].
    destruct (Hfalse eq_refl) as [_ Hdom3].
    assert (Hin : sid ∈ Dict.keys (assignments σ3)).
    { apply dict_keys_to_map. apply elem_of_dom.
      assert (Hin2 : sid ∈ dom (amap σ2)).
      { unfold amap, σ2. simpl. rewrite dict_to_map_set, dom_insert_L. set_solver. }
      apply Hdom3 in Hin2. apply elem_of_union in Hin2 as [?|Hr]; [done|].
      by apply elem_of_list_to_set in Hr. }
    apply dict_del_is_Some in Hin as [d Hdel]. rewrite Hdel.
    apply IH; [done|]. by apply (search_inv_del σ0 σ3 sid d).
Qed.

Lemma backtrack_returns session seats strict σ0 rest :
  (∀ seat, seat ∈ seats → is_Some (session_seat session (Seat.id seat))) →
  NoDup rest →
  ∀ σ, search_inv σ0 σ →
    ∃ ok σ', backtrack session seats strict rest σ = inr (ok, σ').
Proof.
  intros Hsession. induction rest as [|sid rest' IH]; intros Hnd σ Hinv;
    cbn [backtrack]; [by eauto|].
  apply NoDup_cons in Hnd as [Hsid Hnd].
  destruct (Random.shuffle _ (gen σ)) as [cands g] eqn:Hsh.
  apply (try_candidates_returns session seats strict σ0 sid rest').
  - intros. by apply backtrack_post_holds.
  - by apply IH.
  - done.
  - intros c Hc.
    assert (Hc' : c ∈ candidate_seats seats (constraints σ !! sid) (assignments σ)).
    { pose proof (shuffle_Permutation
        (candidate_seats seats (constraints σ !! sid) (assignments σ)) (gen σ)) as Hp.
      rewrite Hsh in Hp. simpl in Hp. by rewrite <- Hp. }
    apply candidate_seats_spec in Hc' as (_ & seat & Hin & <- & _).
    by apply Hsession.
  - destruct Hinv as [Hfr Hnd']. split; [|done].
    eapply solver_frame_trans; [done|]. apply solver_frame_with_gen.
Qed.

Lemma solve_one_assignment_returns session students seats strict σ :
  (∀ seat, seat ∈ seats → is_Some (session_seat session (Seat.id seat))) →
  NoDup students →
  ∃ r σ', solve_one_assignment session students seats strict σ = inr (r, σ').
Proof.
  intros Hsession Hnd. unfold solve_one_assignment.
  destruct (backtrack_returns session seats strict σ
              (sorted_reverse (constraint_score (constraints σ)) students)
              Hsession) with (σ := with_assignments σ []) as (ok & σ' & ->).
  - by rewrite sorted_reverse_Permutation.
  - split; [apply solver_frame_with_assignments|]. simpl. constructor.
  - by eauto.
Qed.

(** ** The adjacency index is symmetric and irreflexive *)

Lemma adjacent_lr_symmetric seats :
  symmetric_adjacency (build_adjacency_maps seats).1.
Proof.
  intros x y. rewrite !build_adjacency_maps_lr.
  intros (s1 & s2 & ? & ? & ? & ? & ? & ?).
  exists s2, s1. repeat split; auto using left_right_sym; try apply left_right_sym; done.
Qed.

Lemma adjacent_9_symmetric seats :
  symmetric_adjacency (build_adjacency_maps seats).2.
Proof.
  intros x y. rewrite !build_adjacency_maps_9.
  intros (s1 & s2 & ? & ? & ? & ? & ? & ?).
  exists s2, s1. repeat split; auto using nine_box_sym; try apply nine_box_sym; done.
Qed.

(** C5. For every list of seats, [y] is in [adjacent_lr[x]] exactly when
    [x] and [y] are the ids of two seats of the list, are distinct, and the
    seats have row distance 0 and column distance 1; [y] is in
    [adjacent_9[x]] exactly when they are distinct ids of seats with both
    distances at most 1. *)
Theorem build_adjacency_maps_correct (seats : list Seat.t) (x y : Z) :
  (y ∈ DefaultDict.read (build_adjacency_maps seats).1 x
   ↔ ∃ s1 s2, s1 ∈ seats ∧ s2 ∈ seats ∧ Seat.id s1 = x ∧ Seat.id s2 = y
              ∧ x ≠ y
              ∧ Z.abs (Seat.row s1 - Seat.row s2) = 0
              ∧ Z.abs (Seat.col s1 - Seat.col s2) = 1)
  ∧ (y ∈ DefaultDict.read (build_adjacency_maps seats).2 x
     ↔ ∃ s1 s2, s1 ∈ seats ∧ s2 ∈ seats ∧ Seat.id s1 = x ∧ Seat.id s2 = y
                ∧ x ≠ y
                ∧ Z.abs (Seat.row s1 - Seat.row s2) ≤ 1
                ∧ Z.abs (Seat.col s1 - Seat.col s2) ≤ 1).
Proof.
  split.
  - rewrite build_adjacency_maps_lr. unfold left_right. naive_solver.
  - rewrite build_adjacency_maps_9. unfold nine_box. naive_solver.
Qed.

(** C6. For every layout the two relations built by
    [build_adjacency_maps] are symmetric and irreflexive. *)
Theorem adjacency_symmetric_irreflexive (seats : list Seat.t) (x y : Z) :
  let lr := (build_adjacency_maps seats).1 in
  let box := (build_adjacency_maps seats).2 in
  (y ∈ DefaultDict.read lr x ↔ x ∈ DefaultDict.read lr y)
  ∧ (x ∉ DefaultDict.read lr x)
  ∧ (y ∈ DefaultDict.read box x ↔ x ∈ DefaultDict.read box y)
  ∧ (x ∉ DefaultDict.read box x).
Proof.
  simpl. repeat split.
  - apply adjacent_lr_symmetric.
  - apply adjacent_lr_symmetric.
  - rewrite build_adjacency_maps_lr. naive_solver.
  - apply adjacent_9_symmetric.
  - apply adjacent_9_symmetric.
  - rewrite build_adjacency_maps_9. naive_solver.
Qed.

(** ** The solver's result *)

Lemma is_seat_allowed_for_student_true seat sc :
  is_seat_allowed_for_student seat (Some sc) = true →
  (∀ rows, StudentConstraint.allowed_rows sc = Some rows → Seat.row seat ∈ rows)
  ∧ (∀ cols, StudentConstraint.allowed_cols sc = Some cols → Seat.col seat ∈ cols).
Proof.
  unfold is_seat_allowed_for_student.
  destruct (StudentConstraint.allowed_rows sc) as [rows|],
           (StudentConstraint.allowed_cols sc) as [cols|];
    repeat case_bool_decide; simpl; intros ?; try done;
    split; intros ? [= <-]; done.
Qed.

Lemma dict_values_NoDup (a : Dict.t) :
  NoDup (Dict.keys a) →
  (∀ k1 k2 v, Dict.to_map a !! k1 = Some v → Dict.to_map a !! k2 = Some v → k1 = k2) →
  NoDup (Dict.values a).
Proof.
  intros Hnd Hinj. unfold Dict.values.
  apply NoDup_fmap_2_strong; [|by eapply NoDup_fmap_1].
  intros [k1 v1] [k2 v2] H1 H2 Hv. simpl in Hv. subst v2.
  f_equal. apply (Hinj k1 k2 v1); by apply elem_of_list_to_map_1.
Qed.

Lemma solver_result_constraints
    (session : SessionState) (students : list Z) (seats : list Seat.t)
    (strict : bool) (σ σ' : State) (a : Dict.t) :
  symmetric_adjacency (adjacent_lr σ) →
  symmetric_adjacency (adjacent_9 σ) →
  solve_one_assignment session students seats strict σ = inr (Some a, σ') →
  rows_cols_respected seats (constraints σ) a
  ∧ must_be_respected (constraints σ) (adjacent_lr σ) a
  ∧ must_not_respected (constraints σ)
      (if strict then adjacent_9 σ else adjacent_lr σ) a.
Proof.
  intros Hlr Hbox Hrun.
  apply solve_one_assignment_post in Hrun as [_ Hpost].
  destruct (Hpost a eq_refl) as (Hnd & _ & _ & Hpos & Hpair).
  assert (Hzone : symmetric_adjacency (if strict then adjacent_9 σ else adjacent_lr σ))
    by by destruct strict.
  assert (Hfz : ∀ k, forbidden_zone strict σ k
                     = DefaultDict.read (if strict then adjacent_9 σ else adjacent_lr σ) k)
    by by destruct strict.
  split; [|split].
  - intros student seat_id sc Hin Hsc.
    apply elem_of_list_to_map_1 in Hin; [|done].
    destruct (Hpos student seat_id Hin) as [(seat & Hseat & Hid & Hok) _].
    rewrite Hsc in Hok. apply is_seat_allowed_for_student_true in Hok.
    exists seat. by repeat split; try apply Hok.
  - intros s1 seat1 s2 seat2 sc Hne H1 H2 Hsc Hreq.
    apply elem_of_list_to_map_1 in H1, H2; try done.
    destruct (Hpair s1 seat1 s2 seat2 Hne H1 H2 sc Hsc) as [Hbe _].
    destruct (Hbe Hreq) as [H|H]; split; auto.
  - intros s1 seat1 s2 seat2 sc Hne H1 H2 Hsc Hreq.
    apply elem_of_list_to_map_1 in H1, H2; try done.
    destruct (Hpair s1 seat1 s2 seat2 Hne H1 H2 sc Hsc) as [_ Hnot].
    specialize (Hnot Hreq). rewrite Hfz in Hnot. split; [done|].
    intros H. apply Hnot. by apply Hzone.
Qed.

(** C1. Whenever [solve_one_assignment] returns an assignment, with
    adjacency maps that are symmetric (as those of [build_adjacency_maps]
    are), the assignment satisfies every declared constraint: row and
    column restrictions; for two students one of whom requires the other
    as a neighbour, each seat is in the other's left-right set, whichever
    was placed first; for two students one of whom forbids the other,
    neither seat is in the other's nine-box set in strict mode, nor in the
    other's left-right set in relaxed mode. *)
Theorem solve_one_assignment_satisfies_constraints
    (session : SessionState) (students : list Z) (seats : list Seat.t)
    (strict : bool) (σ σ' : State) (a : Dict.t) :
  symmetric_adjacency (adjacent_lr σ) →
  symmetric_adjacency (adjacent_9 σ) →
  solve_one_assignment session students seats strict σ = inr (Some a, σ') →
  rows_cols_respected seats (constraints σ) a
  ∧ must_be_respected (constraints σ) (adjacent_lr σ) a
  ∧ must_not_respected (constraints σ)
      (if strict then adjacent_9 σ else adjacent_lr σ) a.
Proof. apply solver_result_constraints. Qed.

Lemma solve_one_assignment_satisfies_constraints_witness :
  rows_cols_respected row_of_three pinned_and_shy [(2, 3); (1, 1); (3, 2)]
  ∧ must_be_respected pinned_and_shy (build_adjacency_maps row_of_three).1
      [(2, 3); (1, 1); (3, 2)]
  ∧ must_not_respected pinned_and_shy (build_adjacency_maps row_of_three).2
      [(2, 3); (1, 1); (3, 2)].
Proof.
  pose (σ := room_state row_of_three [1; 2; 3] pinned_and_shy []).
  pose (session := init_session_state row_of_three).
  apply (solve_one_assignment_satisfies_constraints
           session [1; 2; 3] row_of_three true σ
           (final_state
              (solve_one_assignment session [1; 2; 3] row_of_three true σ) σ)
           [(2, 3); (1, 1); (3, 2)]).
  - apply adjacent_lr_symmetric.
  - apply adjacent_9_symmetric.
  - vm_compute. reflexivity.
Defined.

Lemma solver_result_injective
    (session : SessionState) (students : list Z) (seats : list Seat.t)
    (strict : bool) (σ σ' : State) (a : Dict.t) :
  solve_one_assignment session students seats strict σ = inr (Some a, σ') →
  NoDup (Dict.values a)
  ∧ NoDup (Dict.keys a)
  ∧ ∀ student, student ∈ Dict.keys a ↔ student ∈ students.
Proof.
  intros Hrun. apply solve_one_assignment_post in Hrun as [_ Hpost].
  destruct (Hpost a eq_refl) as (Hnd & Hdom & Hinj & _).
  split; [by apply dict_values_NoDup|]. split; [done|].
  intros student. rewrite dict_keys_to_map, <- elem_of_dom, Hdom.
  apply elem_of_list_to_set.
Qed.

(** C2. Whenever [solve_one_assignment] returns a mapping, no seat id
    occurs in it twice, and its keys are exactly the students passed in. *)
Theorem solve_one_assignment_injective_covering
    (session : SessionState) (students : list Z) (seats : list Seat.t)
    (strict : bool) (σ σ' : State) (a : Dict.t) :
  solve_one_assignment session students seats strict σ = inr (Some a, σ') →
  NoDup (Dict.values a)
  ∧ NoDup (Dict.keys a)
  ∧ ∀ student, student ∈ Dict.keys a ↔ student ∈ students.
Proof. apply solver_result_injective. Qed.

Lemma solve_one_assignment_injective_covering_witness :
  NoDup (Dict.values [(2, 3); (1, 1); (3, 2)])
  ∧ NoDup (Dict.keys [(2, 3); (1, 1); (3, 2)])
  ∧ ∀ student, student ∈ Dict.keys [(2, 3); (1, 1); (3, 2)]
               ↔ student ∈ [1; 2; 3].
Proof.
  pose (σ := room_state row_of_three [1; 2; 3] pinned_and_shy []).
  pose (session := init_session_state row_of_three).
  apply (solve_one_assignment_injective_covering
           session [1; 2; 3] row_of_three true σ
           (final_state
              (solve_one_assignment session [1; 2; 3] row_of_three true σ) σ)).
  vm_compute. reflexivity.
Defined.

(** ** The checker: frame and dependence on the session *)

Lemma check_frame_same_view σ σ' : check_frame σ σ' → same_view σ σ'.
Proof.
  intros (_ & Ha & Hc & _ & Hlr & Hbox).
  repeat split; try done; intros k; by apply grown_read.
Qed.

Lemma same_view_sym σ σ' : same_view σ σ' → same_view σ' σ.
Proof. intros (Ha & Hc & Hlr & Hbox). by repeat split. Qed.

Lemma same_view_forbidden_zone strict σ σ' k :
  same_view σ σ' → forbidden_zone strict σ' k = forbidden_zone strict σ k.
Proof. intros (_ & _ & Hlr & Hbox). unfold forbidden_zone. by destruct strict. Qed.

Lemma placement_ok_same_view session sid seat_id strict σ σ' :
  same_view σ σ' →
  placement_ok session sid seat_id strict σ →
  placement_ok session sid seat_id strict σ'.
Proof.
  intros Hv (Hp & Hout & Hin). pose proof Hv as (Ha & Hc & Hlr & Hbox).
  split; [|split].
  - unfold positional_ok. by rewrite Hc.
  - intros sc o os Hsc Hg. rewrite Hc in Hsc. rewrite Ha in Hg.
    rewrite Hlr, (same_view_forbidden_zone strict σ σ' seat_id Hv).
    by apply (Hout sc o os).
  - intros o os osc Hel Hosc. rewrite Hc in Hosc. rewrite Ha in Hel.
    rewrite Hlr, (same_view_forbidden_zone strict σ σ' os Hv).
    by apply (Hin o os osc).
Qed.

(** C8, as stated, fails: checking student 2 for seat 2, with student 1
    placed, reads [adjacent_lr[2]], and seat 2 has no neighbour, so the
    read stores a new key. *)
Lemma checker_adds_adjacency_keys :
  ¬ checker_leaves_inputs_unchanged
      (init_session_state two_far_seats) 2 2 true one_placed.
Proof.
  intros H.
  pose (σ' := final_state
                (check_partial_constraints
                   (init_session_state two_far_seats) 2 2 true one_placed)
                one_placed).
  destruct (H false σ') as (_ & _ & Hlr & _); [by vm_compute|].
  vm_compute in Hlr. discriminate.
Qed.

(** C8, amended. A call of [check_partial_constraints] that returns leaves
    the partial assignment, the constraints, the list objects and the
    generator as they were; in the two adjacency maps every key keeps its
    set and the only change is new keys bound to the empty set, so every
    lookup returns what it returned before; and a second call with the
    same arguments returns the same boolean. *)
Theorem check_partial_constraints_frame
    (session : SessionState) (student_id seat_id : Z) (strict : bool)
    (σ σ' : State) (b : bool) :
  check_partial_constraints session student_id seat_id strict σ = inr (b, σ') →
  check_frame σ σ'
  ∧ (∀ k, DefaultDict.read (adjacent_lr σ') k = DefaultDict.read (adjacent_lr σ) k)
  ∧ (∀ k, DefaultDict.read (adjacent_9 σ') k = DefaultDict.read (adjacent_9 σ) k)
  ∧ ∃ σ'', check_partial_constraints session student_id seat_id strict σ'
           = inr (b, σ'').
Proof.
  intros Hck.
  assert (Hseat : is_Some (session_seat session seat_id)).
  { apply not_eq_None_Some. intros Hn.
    apply (check_partial_constraints_raises session student_id seat_id strict σ KeyError)
      in Hn. congruence. }
  apply check_partial_constraints_spec in Hck as [Hfr Hb].
  pose proof (check_frame_same_view σ σ' Hfr) as Hv.
  split; [done|]. split; [apply Hv|]. split; [apply Hv|].
  destruct (check_partial_constraints_returns session student_id seat_id strict σ' Hseat)
    as (b' & σ'' & Hck').
  exists σ''. rewrite Hck'. do 2 f_equal.
  apply check_partial_constraints_spec in Hck' as [_ Hb'].
  apply eq_true_iff_eq. rewrite Hb, Hb'. split.
  - apply placement_ok_same_view. by apply same_view_sym.
  - by apply placement_ok_same_view.
Qed.

Lemma check_partial_constraints_frame_witness :
  let σ' := final_state
              (check_partial_constraints
                 (init_session_state two_far_seats) 2 2 true one_placed)
              one_placed in
  check_frame one_placed σ'
  ∧ (∀ k, DefaultDict.read (adjacent_lr σ') k
          = DefaultDict.read (adjacent_lr one_placed) k)
  ∧ (∀ k, DefaultDict.read (adjacent_9 σ') k
          = DefaultDict.read (adjacent_9 one_placed) k)
  ∧ ∃ σ'', check_partial_constraints
             (init_session_state two_far_seats) 2 2 true σ' = inr (false, σ'').
Proof.
  apply (check_partial_constraints_frame
           (init_session_state two_far_seats) 2 2 true one_placed).
  vm_compute. reflexivity.
Defined.

(** C9, as stated, fails: the seat is looked up in the session, and two
    sessions that place seat 1 in different columns give different answers
    for a student held in column 1. *)
Lemma checker_reads_session :
  ¬ checker_ignores_session 1 1 true
      (room_state row_of_three [1; 2; 3] pinned_and_shy []).
Proof.
  intros H.
  pose (σ := room_state row_of_three [1; 2; 3] pinned_and_shy []).
  specialize (H (init_session_state row_of_three) moved_session true false
                (final_state (check_partial_constraints
                                (init_session_state row_of_three) 1 1 true σ) σ)
                (final_state (check_partial_constraints
                                moved_session 1 1 true σ) σ)).
  assert (true = false) as Habs; [|discriminate].
  apply H; vm_compute; reflexivity.
Qed.

(** C9, amended. The result of the check, and the state it leaves, are a
    function of the declared arguments and of the seat the session holds
    for [seat_id]: two session states that hold the same seat for
    [seat_id] (or both none) give the same outcome. *)
Theorem check_partial_constraints_session
    (session1 session2 : SessionState) (student_id seat_id : Z)
    (strict : bool) (σ : State) :
  session_seat session1 seat_id = session_seat session2 seat_id →
  check_partial_constraints session1 student_id seat_id strict σ
  = check_partial_constraints session2 student_id seat_id strict σ.
Proof.
  unfold check_partial_constraints, session_seat.
  destruct (seat_by_id session1) as [t1|], (seat_by_id session2) as [t2|];
    intros Hs.
  - by rewrite Hs.
  - rewrite Hs. done.
  - rewrite <- Hs. done.
  - done.
Qed.

Lemma check_partial_constraints_session_witness :
  check_partial_constraints (init_session_state row_of_three) 2 1 true one_placed
  = check_partial_constraints (init_session_state two_far_seats) 2 1 true one_placed.
Proof.
  apply (check_partial_constraints_session
           (init_session_state row_of_three) (init_session_state two_far_seats)).
  vm_compute. reflexivity.
Defined.

(** ** The constraint score *)

(** C7, as stated, fails: an allowed-rows set that is present and empty is
    falsy, so it adds nothing to the score. *)
Lemma empty_allowed_set_scores_nothing :
  constraint_score nowhere_to_sit 1 = 0
  ∧ constraint_score_spec nowhere_to_sit 1 = 2.
Proof. split; vm_compute; reflexivity. Qed.

(** C7, amended. The score of a student is [+2] for an allowed-rows set
    that is present and not empty, [+2] likewise for the allowed columns,
    and [+3] per entry of each relational set; a student without a record
    scores 0; and in the order the solver places the students, a student
    with a strictly greater score comes before one with a smaller score. *)
Theorem constraint_score_order
    (cs : gmap Z StudentConstraint.t) (students : list Z) :
  (∀ sid, cs !! sid = None → constraint_score cs sid = 0)
  ∧ (∀ sid sc, cs !! sid = Some sc →
       constraint_score cs sid
       = (if StudentConstraint.allowed_rows sc is Some rows
          then if decide (rows = ∅) then 0 else 2 else 0)
         + (if StudentConstraint.allowed_cols sc is Some cols
            then if decide (cols = ∅) then 0 else 2 else 0)
         + 3 * Z.of_nat (size (StudentConstraint.must_be_adjacent_to sc))
         + 3 * Z.of_nat (size (StudentConstraint.must_not_adjacent_to sc)))
  ∧ (∀ i j a b,
       sorted_reverse (constraint_score cs) students !! i = Some a →
       sorted_reverse (constraint_score cs) students !! j = Some b →
       constraint_score cs b < constraint_score cs a →
       (i < j)%nat).
Proof.
  split; [|split].
  - intros sid Hsid. unfold constraint_score. by rewrite Hsid.
  - intros sid sc Hsid. unfold constraint_score, truthy. rewrite Hsid.
    destruct (StudentConstraint.allowed_rows sc) as [rows|],
             (StudentConstraint.allowed_cols sc) as [cols|];
      repeat case_bool_decide; repeat case_decide; simpl; try done; lia.
  - intros i j a b Hi Hj Hlt.
    pose proof (sorted_reverse_sorted (constraint_score cs) students) as Hs.
    destruct (decide (i < j)%nat) as [|Hge]; [done|]. exfalso.
    destruct (decide (i = j)) as [->|Hne].
    + simplify_eq. lia.
    + assert (constraint_score cs a ≤ constraint_score cs b); [|lia].
      apply (StronglySorted_lookup_lt _ _ j i b a Hs); [lia|done|done].
Qed.

(** ** The generator loop *)

Lemma collected_snoc results r :
  collected (results ++ [r]) = keep_new (collected results) r.
Proof. unfold collected. by rewrite foldl_app. Qed.

Lemma snoc_split {A} (p q l : list A) (r : A) :
  p ++ q = l ++ [r] → q ≠ [] →
  (p = l ∧ q = [r]) ∨ (∃ q', q' ≠ [] ∧ l = p ++ q').
Proof.
  intros Heq Hq. destruct q as [|x q _] using rev_ind; [done|].
  rewrite app_assoc in Heq. apply app_inj_tail in Heq as [<- <-].
  destruct q as [|y q].
  - left. by rewrite app_nil_r.
  - right. by exists (y :: q).
Qed.

Lemma loop_inv_initial num_layouts max_attempts :
  loop_inv num_layouts max_attempts (mkLoop [] ∅ 0 []).
Proof.
  unfold loop_inv. simpl. split_and!; try done; try lia; [constructor|].
  intros p q Heq Hq. symmetry in Heq. apply app_eq_nil in Heq as [_ ->]. done.
Qed.

Lemma loop_inv_step num_layouts max_attempts w result :
  loop_inv num_layouts max_attempts w →
  loop_condition num_layouts max_attempts w = true →
  loop_inv num_layouts max_attempts (record_result (count_attempt w) result).
Proof.
  intros (Hlay & Hseen & Hatt & Hnd & Hlen & Hbud & Hpre) Hcond.
  unfold loop_condition in Hcond.
  apply andb_true_iff in Hcond as [Hc1%Z.ltb_lt Hc2%Z.ltb_lt].
  assert (Hpre' : ∀ p q, calls w ++ [result] = p ++ q → q ≠ [] →
            Z.of_nat (length (collected p)) < num_layouts
            ∧ Z.of_nat (length p) < max_attempts).
  { intros p q Heq Hq. symmetry in Heq.
    apply snoc_split in Heq as [[-> _]|(q' & Hq' & Heq)]; [| |done].
    - rewrite <- Hlay, <- Hatt. done.
    - by apply (Hpre p q'). }
  assert (Hatt' : attempts w + 1 = Z.of_nat (length (calls w ++ [result])))
    by (rewrite length_app; simpl; lia).
  unfold record_result, count_attempt. simpl.
  destruct result as [a|]; [case_bool_decide as Hin|].
  - unfold loop_inv; simpl. split_and!; try done; try lia.
    rewrite collected_snoc. simpl. rewrite <- Hlay.
    rewrite bool_decide_eq_true_2; [done|].
    rewrite Hseen in Hin. by apply elem_of_list_to_set in Hin.
  - assert (Hnotin : sorted_items a ∉ sorted_items <$> layouts w).
    { intros H. apply Hin. rewrite Hseen. by apply elem_of_list_to_set. }
    unfold loop_inv; simpl. split_and!; try done; try lia.
    + rewrite collected_snoc. simpl. rewrite <- Hlay.
      by rewrite bool_decide_eq_false_2.
    + rewrite fmap_app, list_to_set_app_L, Hseen. simpl. set_solver.
    + rewrite fmap_app. apply NoDup_app. split; [done|]. split.
      * intros x Hx [->|[]%elem_of_nil]%elem_of_cons. done.
      * apply NoDup_singleton.
    + rewrite length_app. simpl. lia.
  - unfold loop_inv; simpl. split_and!; try done; try lia.
    rewrite collected_snoc. simpl. by rewrite <- Hlay.
Qed.

Lemma attempts_record_result w result :
  attempts (record_result (count_attempt w) result) = attempts w + 1.
Proof.
  unfold record_result, count_attempt. simpl.
  destruct result; [case_bool_decide|]; done.
Qed.

Lemma generator_frame_refl students σ : generator_frame students σ σ.
Proof. repeat split; auto using grown_refl. Qed.

Lemma generator_frame_trans students σ1 σ2 σ3 :
  generator_frame students σ1 σ2 → generator_frame students σ2 σ3 →
  generator_frame students σ1 σ3.
Proof.
  intros (Hc & Hlr & Hbox & Hoth & Hperm) (Hc' & Hlr' & Hbox' & Hoth' & Hperm').
  split_and!; try congruence; eauto using grown_trans.
  - intros a Ha. rewrite Hoth', Hoth; done.
  - by rewrite Hperm'.
Qed.

Lemma random_shuffle_frame students σ :
  generator_frame students σ (random_shuffle students σ).
Proof.
  unfold random_shuffle.
  pose proof (shuffle_Permutation (list_at students σ) (gen σ)) as Hp.
  destruct (Random.shuffle (list_at students σ) (gen σ)) as [l g]. simpl in Hp.
  unfold generator_frame, list_at at 1. simpl.
  split_and!; auto using grown_refl.
  - intros a Ha. by rewrite lookup_insert_ne.
  - by rewrite lookup_insert_eq.
Qed.

Lemma solver_frame_generator_frame students σ σ' :
  solver_frame σ σ' → generator_frame students σ σ'.
Proof.
  intros (Hl & Hc & Hlr & Hbox). unfold generator_frame, list_at.
  rewrite Hl. by split_and!.
Qed.

(** The loop terminates within its fuel; when it returns, the invariant
    holds and the loop condition is false; and it does return when the
    session knows every seat and the students are pairwise distinct. *)
Lemma generate_loop_post session num_layouts max_attempts students seats strict :
  ∀ fuel w σ,
    loop_inv num_layouts max_attempts w →
    (Z.to_nat (max_attempts - attempts w) ≤ fuel)%nat →
    ∃ r,
      generate_loop fuel session num_layouts max_attempts students seats
        strict w σ = Some r
      ∧ (∀ w' σ', r = inr (w', σ') →
           loop_inv num_layouts max_attempts w'
           ∧ loop_condition num_layouts max_attempts w' = false
           ∧ generator_frame students σ σ')
      ∧ ((∀ seat, seat ∈ seats → is_Some (session_seat session (Seat.id seat))) →
         NoDup (list_at students σ) →
         ∃ w' σ', r = inr (w', σ')).
Proof.
  induction fuel as [|fuel IH]; intros w σ Hinv Hfuel; cbn [generate_loop];
    destruct (loop_condition num_layouts max_attempts w) eqn:Hcond.
  - exfalso. unfold loop_condition in Hcond.
    apply andb_true_iff in Hcond as [_ Hc2%Z.ltb_lt]. lia.
  - exists (inr (w, σ)). split; [done|]. split; [|by eauto].
    intros w' σ' [= <- <-]. split; [done|]. split; [done|].
    apply generator_frame_refl.
  - pose proof (random_shuffle_frame students σ) as Hfr1.
    set (σ1 := random_shuffle students σ) in *.
    destruct (solve_one_assignment session (list_at students σ1) seats strict σ1)
      as [e|[result σ2]] eqn:Hsolve.
    + exists (inl e). split; [done|]. split; [done|].
      intros Hsession Hnd. exfalso.
      destruct (solve_one_assignment_returns session (list_at students σ1)
                  seats strict σ1 Hsession) as (r' & σ'' & Hret).
      * destruct Hfr1 as (_ & _ & _ & _ & Hp). by rewrite Hp.
      * congruence.
    + apply solve_one_assignment_post in Hsolve as [Hfr2 _].
      apply (solver_frame_generator_frame students) in Hfr2.
      destruct (IH (record_result (count_attempt w) result) σ2) as (r & Hr & Hpost & Hret).
      * by apply loop_inv_step.
      * rewrite attempts_record_result. unfold loop_condition in Hcond.
        apply andb_true_iff in Hcond as [_ Hc2%Z.ltb_lt]. lia.
      * exists r. split; [done|]. split.
        -- intros w' σ' Heq. destruct (Hpost w' σ' Heq) as (? & ? & Hfr3).
           split; [done|]. split; [done|].
           eapply generator_frame_trans; [exact Hfr1|].
           eapply generator_frame_trans; [exact Hfr2|exact Hfr3].
        -- intros Hsession Hnd. apply Hret; [done|].
           destruct Hfr1 as (_ & _ & _ & _ & Hp1).
           destruct Hfr2 as (_ & _ & _ & _ & Hp2).
           by rewrite Hp2, Hp1.
  - exists (inr (w, σ)). split; [done|]. split; [|by eauto].
    intros w' σ' [= <- <-]. split; [done|]. split; [done|].
    apply generator_frame_refl.
Qed.

Lemma generate_multiple_layouts_post session num_layouts students seats strict σ :
  ∃ r,
    generate_multiple_layouts session num_layouts students seats strict σ = Some r
    ∧ (∀ w' σ', r = inr (w', σ') →
         loop_inv num_layouts (num_layouts * 30) w'
         ∧ loop_condition num_layouts (num_layouts * 30) w' = false
         ∧ generator_frame students σ σ')
    ∧ ((∀ seat, seat ∈ seats → is_Some (session_seat session (Seat.id seat))) →
       NoDup (list_at students σ) →
       ∃ w' σ', r = inr (w', σ')).
Proof.
  unfold generate_multiple_layouts. apply generate_loop_post.
  - apply loop_inv_initial.
  - simpl. lia.
Qed.

(** ** The generator's result *)

(** C10. [generate_multiple_layouts] shuffles the list object it is handed:
    when it returns, that object holds a permutation of what it held, and
    no other list object has changed; there are calls after which the
    order differs; and [main], which hands over [student_ids.copy()],
    finds its own [student_ids] as it was. *)
Theorem generate_multiple_layouts_shuffles_argument :
  (∀ session num_layouts students seats strict σ w σ',
     generate_multiple_layouts session num_layouts students seats strict σ
     = Some (inr (w, σ')) →
     list_at students σ' ≡ₚ list_at students σ
     ∧ ∀ a, a ≠ students → lists σ' !! a = lists σ !! a)
  ∧ (∃ session num_layouts students seats strict σ w σ',
       generate_multiple_layouts session num_layouts students seats strict σ
       = Some (inr (w, σ'))
       ∧ list_at students σ' ≠ list_at students σ)
  ∧ (∀ session num_layouts student_ids seats σ ls σ',
       is_Some (lists σ !! student_ids) →
       main_generate session num_layouts student_ids seats σ
       = Some (inr (ls, σ')) →
       lists σ' !! student_ids = lists σ !! student_ids).
Proof.
  split; [|split].
  - intros session num_layouts students seats strict σ w σ' Hrun.
    destruct (generate_multiple_layouts_post session num_layouts students seats
                strict σ) as (r & Hr & Hpost & _).
    rewrite Hrun in Hr. simplify_eq.
    destruct (Hpost w σ' eq_refl) as (_ & _ & _ & _ & _ & Hoth & Hperm). done.
  - pose (σ := room_state row_of_three [1; 2; 3] ∅ []).
    pose (r := generate_multiple_layouts (init_session_state row_of_three)
                 1 0%nat row_of_three true σ).
    exists (init_session_state row_of_three), 1, 0%nat, row_of_three, true, σ.
    exists (match r with Some (inr (w, _)) => w | _ => mkLoop [] ∅ 0 [] end).
    exists (match r with Some (inr (_, σ')) => σ' | _ => σ end).
    split; [vm_compute; reflexivity|]. vm_compute. discriminate.
  - intros session num_layouts student_ids seats σ ls σ' Hlive.
    unfold main_generate, list_copy.
    set (a1 := fresh (dom (lists σ))).
    set (σ1 := with_lists σ _).
    assert (Ha1 : a1 ≠ student_ids).
    { intros Heq. apply elem_of_dom in Hlive. rewrite <- Heq in Hlive.
      by apply (is_fresh (dom (lists σ))). }
    assert (H1 : lists σ1 !! student_ids = lists σ !! student_ids).
    { unfold σ1. simpl. by rewrite lookup_insert_ne. }
    destruct (generate_multiple_layouts_post session num_layouts a1 seats true σ1)
      as (r1 & -> & Hpost1 & _).
    destruct r1 as [e|[w σ2]]; [done|].
    destruct (Hpost1 w σ2 eq_refl) as (_ & _ & _ & _ & _ & Hoth1 & _).
    assert (H2 : lists σ2 !! student_ids = lists σ !! student_ids).
    { rewrite Hoth1; [done|]. done. }
    destruct (layouts w) as [|l ls'] eqn:Hl.
    + set (a3 := fresh (dom (lists σ2))).
      set (σ3 := with_lists σ2 _).
      assert (Ha3 : a3 ≠ student_ids).
      { intros Heq. rewrite <- H2 in Hlive. apply elem_of_dom in Hlive.
        rewrite <- Heq in Hlive. by apply (is_fresh (dom (lists σ2))). }
      destruct (generate_multiple_layouts_post session num_layouts a3 seats false σ3)
        as (r3 & -> & Hpost3 & _).
      destruct r3 as [e|[w' σ4]]; [done|].
      intros [= <- <-].
      destruct (Hpost3 w' σ4 eq_refl) as (_ & _ & _ & _ & _ & Hoth3 & _).
      rewrite Hoth3; [|done]. unfold σ3. simpl.
      by rewrite lookup_insert_ne.
    + intros [= <- <-]. done.
Qed.

(** ** Failure is reported, not raised *)


Lemma solver_result_legal session students seats strict σ σ' a :
  symmetric_adjacency (adjacent_lr σ) →
  symmetric_adjacency (adjacent_9 σ) →
  solve_one_assignment session students seats strict σ = inr (Some a, σ') →
  legal_assignment students seats strict σ a.
Proof.
  intros Hlr Hbox Hrun.
  destruct (solver_result_injective session students seats strict σ σ' a Hrun)
    as (? & ? & ?).
  destruct (solver_result_constraints session students seats strict σ σ' a
              Hlr Hbox Hrun) as (? & ? & ?).
  unfold legal_assignment. by split_and!.
Qed.



(** * Further properties of the code *)

(** ** The checker *)

(** X1. When [check_partial_constraints] returns, it returns [True]
    exactly when the session's seat admits the student, every placed
    student in the student's own must-be set sits in the left-right set of
    the seat and none in its must-not set sits in the seat's forbidden
    zone, and the same holds for what every placed student's record says
    about this student. *)
Theorem check_partial_constraints_decides
    (session : SessionState) (student_id seat_id : Z) (strict : bool)
    (σ σ' : State) (b : bool) :
  check_partial_constraints session student_id seat_id strict σ = inr (b, σ') →
  (b = true ↔ placement_ok session student_id seat_id strict σ).
Proof. intros Hck. by apply check_partial_constraints_spec in Hck as [_ ?]. Qed.

Lemma check_partial_constraints_decides_witness :
  false = true
  ↔ placement_ok (init_session_state two_far_seats) 2 2 true one_placed.
Proof.
  apply (check_partial_constraints_decides
           (init_session_state two_far_seats) 2 2 true one_placed
           (final_state
              (check_partial_constraints
                 (init_session_state two_far_seats) 2 2 true one_placed)
              one_placed)).
  vm_compute. reflexivity.
Defined.

Lemma must_be_loop_nothing_placed others seat_id σ :
  assignments σ = [] → must_be_loop others seat_id σ = (true, σ).
Proof.
  intros Ha. induction others as [|o others IH]; simpl; [done|].
  by rewrite Ha.
Qed.

Lemma must_not_loop_nothing_placed others seat_id strict σ :
  assignments σ = [] → must_not_loop others seat_id strict σ = (true, σ).
Proof.
  intros Ha. induction others as [|o others IH]; simpl; [done|].
  by rewrite Ha.
Qed.

(** X3. With nobody placed yet, the check is the row and column test
    alone, and it leaves the state as it is: relational constraints cannot
    reject a first placement, and no adjacency map is read. *)
Theorem check_partial_constraints_first_placement
    (session : SessionState) (student_id seat_id : Z) (strict : bool)
    (σ : State) (seat : Seat.t) :
  assignments σ = [] →
  session_seat session seat_id = Some seat →
  check_partial_constraints session student_id seat_id strict σ
  = inr (is_seat_allowed_for_student seat (constraints σ !! student_id), σ).
Proof.
  intros Ha Hseat. unfold check_partial_constraints, session_seat in *.
  destruct (seat_by_id session) as [table|]; [|done]. rewrite Hseat.
  destruct (is_seat_allowed_for_student seat (constraints σ !! student_id));
    simpl; [|done].
  destruct (constraints σ !! student_id) as [sc|].
  - rewrite must_be_loop_nothing_placed by done. simpl.
    rewrite must_not_loop_nothing_placed by done. simpl.
    by rewrite Ha.
  - simpl. by rewrite Ha.
Qed.

Lemma check_partial_constraints_first_placement_witness :
  check_partial_constraints (init_session_state row_of_three) 1 2 true
    (room_state row_of_three [1; 2; 3] pinned_and_shy [])
  = inr (is_seat_allowed_for_student (Seat.mk 2 1 2) (pinned_and_shy !! 1),
         room_state row_of_three [1; 2; 3] pinned_and_shy []).
Proof.
  apply (check_partial_constraints_first_placement
           (init_session_state row_of_three) 1 2 true
           (room_state row_of_three [1; 2; 3] pinned_and_shy [])
           (Seat.mk 2 1 2)).
  - reflexivity.
  - vm_compute. reflexivity.
Defined.

Lemma touch_touch d k : DefaultDict.touch (DefaultDict.touch d k) k = DefaultDict.touch d k.
Proof.
  unfold DefaultDict.touch. destruct (d !! k) eqn:E.
  - by rewrite E.
  - by rewrite lookup_insert_eq.
Qed.

Lemma must_be_loop_Permutation others others' seat_id :
  others ≡ₚ others' →
  ∀ σ, must_be_loop others seat_id σ = must_be_loop others' seat_id σ.
Proof.
  induction 1 as [|x l l' Hp IH|x y l|l1 l2 l3 Hp1 IH1 Hp2 IH2]; intros σ.
  - done.
  - simpl. destruct (Dict.get (assignments σ) x); [|by apply IH].
    case_bool_decide; [by apply IH|done].
  - simpl.
    destruct (Dict.get (assignments σ) x) as [sx|],
             (Dict.get (assignments σ) y) as [sy|]; simpl; try done;
      rewrite ?read_touch, ?touch_touch;
      repeat case_bool_decide; simpl; try done.
  - by rewrite IH1, IH2.
Qed.

Lemma must_not_loop_Permutation others others' seat_id strict :
  others ≡ₚ others' →
  ∀ σ, must_not_loop others seat_id strict σ
       = must_not_loop others' seat_id strict σ.
Proof.
  induction 1 as [|x l l' Hp IH|x y l|l1 l2 l3 Hp1 IH1 Hp2 IH2]; intros σ.
  - done.
  - simpl. destruct (Dict.get (assignments σ) x); [|by apply IH].
    destruct strict; simpl; case_bool_decide; try done; by apply IH.
  - destruct strict; simpl;
      destruct (Dict.get (assignments σ) x) as [sx|],
               (Dict.get (assignments σ) y) as [sy|]; simpl; try done;
      rewrite ?read_touch, ?touch_touch;
      repeat case_bool_decide; simpl; try done.
  - by rewrite IH1, IH2.
Qed.

(** X4. The two loops over the student's own relational sets give the
    same answer, and leave the same adjacency maps, in whatever order the
    sets are iterated: the checker does not depend on the iteration order
    of a Python set. *)
Theorem checker_set_order_irrelevant
    (others others' : list Z) (seat_id : Z) (strict : bool) (σ : State) :
  others ≡ₚ others' →
  must_be_loop others seat_id σ = must_be_loop others' seat_id σ
  ∧ must_not_loop others seat_id strict σ
    = must_not_loop others' seat_id strict σ.
Proof.
  intros Hp. split.
  - by apply must_be_loop_Permutation.
  - by apply must_not_loop_Permutation.
Qed.

Lemma checker_set_order_irrelevant_witness :
  must_be_loop [1; 3] 2 one_placed = must_be_loop [3; 1] 2 one_placed
  ∧ must_not_loop [1; 3] 2 true one_placed = must_not_loop [3; 1] 2 true one_placed.
Proof.
  apply (checker_set_order_irrelevant [1; 3] [3; 1] 2 true one_placed).
  apply Permutation_swap.
Defined.

(** ** The adjacency index *)

(** X5. Every left-right neighbour is a nine-box neighbour, so a layout
    that keeps the forbidden pairs apart in strict mode keeps them apart in
    relaxed mode too: the fallback of [main] only ever relaxes. *)
Theorem left_right_within_nine_box (seats : list Seat.t) :
  (∀ x y, y ∈ DefaultDict.read (build_adjacency_maps seats).1 x →
          y ∈ DefaultDict.read (build_adjacency_maps seats).2 x)
  ∧ (∀ cs a,
       must_not_respected cs (build_adjacency_maps seats).2 a →
       must_not_respected cs (build_adjacency_maps seats).1 a).
Proof.
  assert (Hsub : ∀ x y, y ∈ DefaultDict.read (build_adjacency_maps seats).1 x →
                        y ∈ DefaultDict.read (build_adjacency_maps seats).2 x).
  { intros x y. rewrite build_adjacency_maps_lr, build_adjacency_maps_9.
    intros (s1 & s2 & ? & ? & ? & ? & ? & Hlr). exists s1, s2.
    split_and!; try done. unfold left_right, nine_box in *. lia. }
  split; [done|].
  intros cs a Hnot s1 seat1 s2 seat2 sc Hne H1 H2 Hsc Hin.
  destruct (Hnot s1 seat1 s2 seat2 sc Hne H1 H2 Hsc Hin) as [Ha Hb].
  split; intros H; [apply Ha|apply Hb]; by apply Hsub.
Qed.

Lemma no_empty_entry_add d k v :
  no_empty_entry d → no_empty_entry (DefaultDict.add d k v).
Proof.
  intros Hd k' s. unfold DefaultDict.add.
  destruct (decide (k = k')) as [->|Hne].
  - rewrite lookup_insert_eq. intros [= <-]. set_solver.
  - rewrite lookup_insert_ne by done. unfold DefaultDict.touch.
    destruct (d !! k) eqn:E; [by apply Hd|].
    rewrite lookup_insert_ne by done. by apply Hd.
Qed.

Lemma no_empty_entry_step s1 s2 acc :
  no_empty_entry acc.1 ∧ no_empty_entry acc.2 →
  no_empty_entry (adjacency_step s1 s2 acc).1
  ∧ no_empty_entry (adjacency_step s1 s2 acc).2.
Proof.
  intros [H1 H2]. unfold adjacency_step.
  destruct (Seat.id s1 =? Seat.id s2); [done|]. simpl.
  split; destruct (_ && _); auto using no_empty_entry_add.
Qed.

Lemma no_empty_entry_build seats :
  no_empty_entry (build_adjacency_maps seats).1
  ∧ no_empty_entry (build_adjacency_maps seats).2.
Proof.
  unfold build_adjacency_maps.
  assert (Hinner : ∀ s1 l acc,
            no_empty_entry acc.1 ∧ no_empty_entry acc.2 →
            no_empty_entry (foldl (fun acc s2 => adjacency_step s1 s2 acc) acc l).1
            ∧ no_empty_entry (foldl (fun acc s2 => adjacency_step s1 s2 acc) acc l).2).
  { intros s1 l. induction l as [|s2 l IH]; intros acc Hacc; simpl; [done|].
    apply IH. by apply no_empty_entry_step. }
  generalize seats at 1 3. intros inner.
  assert (Houter : ∀ l acc,
            no_empty_entry acc.1 ∧ no_empty_entry acc.2 →
            no_empty_entry
              (foldl (fun acc s1 =>
                        foldl (fun acc s2 => adjacency_step s1 s2 acc) acc inner)
                     acc l).1
            ∧ no_empty_entry
                (foldl (fun acc s1 =>
                          foldl (fun acc s2 => adjacency_step s1 s2 acc) acc inner)
                       acc l).2).
  { induction l as [|s1 l IH]; intros acc Hacc; simpl; [done|].
    apply IH. by apply Hinner. }
  apply Houter. split; intros k s; simpl; by rewrite lookup_empty.
Qed.

(** X6. [build_adjacency_maps] never stores an empty set: a seat id is a
    key of [adjacent_lr] exactly when some seat is its left-right
    neighbour, and a key of [adjacent_9] exactly when some seat is in its
    nine-box; a seat without neighbours is not a key. *)
Theorem adjacency_keys_have_neighbours (seats : list Seat.t) (x : Z) :
  (x ∈ dom (build_adjacency_maps seats).1
   ↔ ∃ y, y ∈ DefaultDict.read (build_adjacency_maps seats).1 x)
  ∧ (x ∈ dom (build_adjacency_maps seats).2
     ↔ ∃ y, y ∈ DefaultDict.read (build_adjacency_maps seats).2 x).
Proof.
  destruct (no_empty_entry_build seats) as [H1 H2].
  assert (Hgen : ∀ d : DefaultDict.t, no_empty_entry d →
            x ∈ dom d ↔ ∃ y, y ∈ DefaultDict.read d x).
  { intros d Hd. rewrite elem_of_dom. unfold DefaultDict.read. split.
    - intros [s Hs]. rewrite Hs. simpl.
      apply set_choose_L. by apply (Hd x).
    - intros [y Hy]. destruct (d !! x) as [s|]; [by eexists|].
      simpl in Hy. by apply not_elem_of_empty in Hy. }
  split; by apply Hgen.
Qed.

(** ** The solver: counting and undoing *)

Lemma dict_set_fresh (d : Dict.t) k v :
  k ∉ Dict.keys d → Dict.set d k v = d ++ [(k, v)].
Proof.
  unfold Dict.keys. induction d as [|[k' v'] d IH]; simpl; [done|].
  intros Hk. apply not_elem_of_cons in Hk as [Hne Hk].
  case_decide; [congruence|]. by rewrite IH.
Qed.

Lemma dict_del_snoc (d : Dict.t) k v :
  k ∉ Dict.keys d → Dict.del (d ++ [(k, v)]) k = Some d.
Proof.
  unfold Dict.keys. induction d as [|[k' v'] d IH]; simpl.
  - intros _. by case_decide.
  - intros Hk. apply not_elem_of_cons in Hk as [Hne Hk].
    case_decide; [congruence|]. by rewrite IH.
Qed.

(** What a call of [backtrack] on [rest] does to [assignments]. *)
Lemma try_candidates_exact session strict sid rest' next :
  (∀ σ (ok : bool) σ',
     (∀ s, s ∈ rest' → s ∉ Dict.keys (assignments σ)) →
     next σ = inr (ok, σ') →
     if ok then ∃ l, assignments σ' = assignments σ ++ l ∧ l.*1 = rest'
     else assignments σ' = assignments σ) →
  sid ∉ rest' →
  ∀ cands σ (ok : bool) σ',
    sid ∉ Dict.keys (assignments σ) →
    (∀ s, s ∈ rest' → s ∉ Dict.keys (assignments σ)) →
    try_candidates session next sid strict cands σ = inr (ok, σ') →
    if ok then ∃ l, assignments σ' = assignments σ ++ l ∧ l.*1 = sid :: rest'
    else assignments σ' = assignments σ.
Proof.
  intros Hnext Hsid cands.
  induction cands as [|c cands IH]; intros σ ok σ' Hfresh Hrest;
    cbn [try_candidates].
  - by intros [= <- <-].
  - destruct (check_partial_constraints session sid c strict σ)
      as [e|[b σ1]] eqn:Hck; [done|].
    apply check_partial_constraints_spec in Hck as [(_ & Ha & _) _].
    destruct b.
    2:{ intros Htry. rewrite <- Ha. apply (IH σ1 ok σ'); by rewrite ?Ha. }
    rewrite Ha, dict_set_fresh by done.
    set (σ2 := with_assignments σ1 (assignments σ ++ [(sid, c)])).
    destruct (next σ2) as [e|[ok3 σ3]] eqn:Hn; [done|].
    apply Hnext in Hn.
    2:{ intros s Hs. unfold σ2, Dict.keys. simpl. rewrite fmap_app.
        intros [Hin|Hin%list_elem_of_singleton]%elem_of_app.
        - by apply (Hrest s).
        - by subst. }
    destruct ok3.
    + intros [= <- <-]. destruct Hn as (l & Hl & Hkeys).
      exists ((sid, c) :: l). simpl in Hl. split.
      * by rewrite Hl, <- app_assoc.
      * by rewrite fmap_cons, Hkeys.
    + simpl in Hn. rewrite Hn, dict_del_snoc by done.
      intros Htry. apply (IH (with_assignments σ3 (assignments σ)) ok σ');
        done.
Qed.

Lemma backtrack_exact session seats strict rest :
  NoDup rest →
  ∀ σ (ok : bool) σ',
    (∀ s, s ∈ rest → s ∉ Dict.keys (assignments σ)) →
    backtrack session seats strict rest σ = inr (ok, σ') →
    if ok then ∃ l, assignments σ' = assignments σ ++ l ∧ l.*1 = rest
    else assignments σ' = assignments σ.
Proof.
  induction rest as [|sid rest' IH]; intros Hnd σ ok σ' Hfresh; cbn [backtrack].
  - intros [= <- <-]. exists []. by rewrite app_nil_r.
  - apply NoDup_cons in Hnd as [Hsid Hnd].
    destruct (Random.shuffle _ (gen σ)) as [cands g].
    intros Htry.
    apply (try_candidates_exact session strict sid rest'
             (backtrack session seats strict rest') (IH Hnd) Hsid
             cands (with_gen σ g) ok σ') in Htry; [done| |].
    + simpl. apply Hfresh. by left.
    + simpl. intros s Hs. apply Hfresh. by right.
Qed.

(** X8. A call of [backtrack] on students that are pairwise distinct and
    not yet placed, when it returns [False], leaves [assignments] exactly
    as it found it, entries and order; when it returns [True], it has
    appended one entry per student, in the order of [students_sorted]. *)
Theorem backtrack_undoes_placements
    (session : SessionState) (seats : list Seat.t) (strict : bool)
    (rest : list Z) (σ σ' : State) (ok : bool) :
  NoDup rest →
  (∀ s, s ∈ rest → s ∉ Dict.keys (assignments σ)) →
  backtrack session seats strict rest σ = inr (ok, σ') →
  if ok then ∃ l, assignments σ' = assignments σ ++ l ∧ l.*1 = rest
  else assignments σ' = assignments σ.
Proof. intros Hnd Hfresh. by apply backtrack_exact. Qed.

Lemma backtrack_undoes_placements_witness :
  assignments
    (final_state
       (backtrack (init_session_state two_far_seats) two_far_seats true [2]
          one_placed) one_placed)
  = assignments one_placed.
Proof.
  apply (backtrack_undoes_placements
           (init_session_state two_far_seats) two_far_seats true [2]
           one_placed _ false).
  - repeat constructor; set_solver.
  - intros s Hs. apply list_elem_of_singleton in Hs as ->.
    vm_compute. set_solver.
  - vm_compute. reflexivity.
Defined.

(** ** The search is complete *)








Lemma seat_table_other (l : list Seat.t) (m : gmap Z Seat.t) k :
  k ∉ Seat.id <$> l →
  foldl (fun m s => <[Seat.id s := s]> m) m l !! k = m !! k.
Proof.
  revert m. induction l as [|s l IH]; intros m Hk; simpl; [done|].
  rewrite fmap_cons in Hk. apply not_elem_of_cons in Hk as [Hne Hk].
  rewrite IH by done. by rewrite lookup_insert_ne.
Qed.

Lemma init_session_state_agrees seats :
  NoDup (Seat.id <$> seats) → session_agrees (init_session_state seats) seats.
Proof.
  unfold session_agrees, session_seat, init_session_state. simpl.
  generalize (∅ : gmap Z Seat.t).
  induction seats as [|s seats IH]; intros m Hnd seat Hin; simpl.
  - by apply elem_of_nil in Hin.
  - rewrite fmap_cons in Hnd. apply NoDup_cons in Hnd as [Hs Hnd].
    apply elem_of_cons in Hin as [->|Hin]; [|by apply IH].
    rewrite seat_table_other by done. by rewrite lookup_insert_eq.
Qed.

Lemma solver_result_placement session students seats strict σ σ' a :
  symmetric_adjacency (adjacent_lr σ) →
  symmetric_adjacency (adjacent_9 σ) →
  solve_one_assignment session students seats strict σ = inr (Some a, σ') →
  placement students seats strict σ a.
Proof.
  intros Hlr Hbox Hrun. split; [by eapply solver_result_legal|].
  apply solve_one_assignment_post in Hrun as [_ Hpost].
  destruct (Hpost a eq_refl) as (Hnd & _ & _ & Hpos & _).
  intros s c Hin. apply elem_of_list_to_map_1 in Hin; [|done].
  destruct (Hpos s c Hin) as [(seat & Hs & <- & _) _].
  apply list_elem_of_fmap. by exists seat.
Qed.


(** X10. [init_session_state] builds the seat table only when the session
    has none: on a fresh session with pairwise distinct seat ids every seat
    of the layout is then found under its id; on a session that already
    holds a table, the table stays as it is, whatever the layout. *)
Theorem init_session_state_table (session : SessionState) (seats : list Seat.t) :
  (seat_by_id session = None → NoDup (Seat.id <$> seats) →
   session_agrees (init_seat_table session seats) seats)
  ∧ (is_Some (seat_by_id session) → init_seat_table session seats = session)
  ∧ is_Some (seat_by_id (init_seat_table session seats)).
Proof.
  unfold init_seat_table. split; [|split].
  - intros -> Hnd. by apply init_session_state_agrees.
  - by intros [t ->].
  - destruct (seat_by_id session) eqn:E; [by rewrite E|]. simpl. by eexists.
Qed.

(** ** Every generated layout is legal *)

Lemma placement_frame students students' seats strict σ σ' a :
  students' ≡ₚ students →
  constraints σ' = constraints σ →
  (∀ k, DefaultDict.read (adjacent_lr σ') k = DefaultDict.read (adjacent_lr σ) k) →
  (∀ k, DefaultDict.read (adjacent_9 σ') k = DefaultDict.read (adjacent_9 σ) k) →
  placement students' seats strict σ' a → placement students seats strict σ a.
Proof.
  intros Hp Hc Hlr Hbox [(Hv & Hk & Hkeys & Hrc & Hbe & Hnot) Hseats].
  split; [|done]. unfold legal_assignment. split_and!; try done.
  - intros s. rewrite Hkeys. by rewrite Hp.
  - by rewrite <- Hc.
  - intros s1 seat1 s2 seat2 sc Hne H1 H2 Hsc Hreq. rewrite <- Hc in Hsc.
    rewrite <- !Hlr. by apply (Hbe s1 seat1 s2 seat2 sc).
  - intros s1 seat1 s2 seat2 sc Hne H1 H2 Hsc Hreq. rewrite <- Hc in Hsc.
    pose proof (Hnot s1 seat1 s2 seat2 sc Hne H1 H2 Hsc Hreq) as Hn.
    destruct strict; [rewrite <- !Hbox|rewrite <- !Hlr]; done.
Qed.

Lemma symmetric_adjacency_reads d d' :
  (∀ k, DefaultDict.read d' k = DefaultDict.read d k) →
  symmetric_adjacency d → symmetric_adjacency d'.
Proof. intros Hr Hs x y. rewrite !Hr. apply Hs. Qed.

Lemma calls_record_result w result :
  calls (record_result (count_attempt w) result) = calls w ++ [result].
Proof.
  unfold record_result, count_attempt. simpl.
  destruct result; [case_bool_decide|]; done.
Qed.

Lemma generate_loop_results (Q : option Dict.t → Prop)
    session num_layouts max_attempts students seats strict σ0 :
  (∀ σ1 result σ2,
     generator_frame students σ0 σ1 →
     solve_one_assignment session (list_at students σ1) seats strict σ1
     = inr (result, σ2) → Q result) →
  ∀ fuel w σ w' σ',
    generator_frame students σ0 σ → Forall Q (calls w) →
    generate_loop fuel session num_layouts max_attempts students seats strict w σ
    = Some (inr (w', σ')) →
    Forall Q (calls w').
Proof.
  intros HQ. induction fuel as [|fuel IH]; intros w σ w' σ' Hfr Hall;
    cbn [generate_loop];
    destruct (loop_condition num_layouts max_attempts w); try done;
    try (by intros [= <- <-]).
  pose proof (random_shuffle_frame students σ) as Hfr1.
  set (σ1 := random_shuffle students σ) in *.
  assert (Hfr01 : generator_frame students σ0 σ1)
    by by eapply generator_frame_trans.
  destruct (solve_one_assignment session (list_at students σ1) seats strict σ1)
    as [e|[result σ2]] eqn:Hsolve; [done|].
  intros Hloop. apply IH in Hloop; [done| |].
  - eapply generator_frame_trans; [done|].
    apply solver_frame_generator_frame.
    by apply solve_one_assignment_post in Hsolve as [? _].
  - rewrite calls_record_result. apply Forall_app. split; [done|].
    apply Forall_singleton. by eapply HQ.
Qed.

Lemma collected_from_calls results a :
  a ∈ collected results → Some a ∈ results.
Proof.
  induction results as [|r results IH] using rev_ind.
  - by intros ?%elem_of_nil.
  - rewrite collected_snoc. unfold keep_new. rewrite elem_of_app.
    destruct r as [a'|]; [case_bool_decide as Hdup|];
      try (intros Hin; left; by apply IH).
    intros [Hin|Hin%list_elem_of_singleton]%elem_of_app; [left; by apply IH|].
    right. subst. by apply list_elem_of_singleton.
Qed.

Lemma generator_frame_reads students σ σ' :
  generator_frame students σ σ' →
  constraints σ' = constraints σ
  ∧ (∀ k, DefaultDict.read (adjacent_lr σ') k = DefaultDict.read (adjacent_lr σ) k)
  ∧ (∀ k, DefaultDict.read (adjacent_9 σ') k = DefaultDict.read (adjacent_9 σ) k)
  ∧ list_at students σ' ≡ₚ list_at students σ.
Proof.
  intros (Hc & Hlr & Hbox & _ & Hp).
  split_and!; try done; intros k; by apply grown_read.
Qed.

Lemma generated_layouts_placements session num_layouts students seats strict σ w σ' :
  symmetric_adjacency (adjacent_lr σ) →
  symmetric_adjacency (adjacent_9 σ) →
  generate_multiple_layouts session num_layouts students seats strict σ
  = Some (inr (w, σ')) →
  ∀ a, a ∈ layouts w → placement (list_at students σ) seats strict σ a.
Proof.
  intros Hlr Hbox Hrun a Ha.
  pose proof Hrun as Hrun'.
  unfold generate_multiple_layouts in Hrun.
  apply (generate_loop_results
           (fun r => ∀ a, r = Some a →
                          placement (list_at students σ) seats strict σ a)
           session num_layouts (num_layouts * 30) students seats strict σ)
    in Hrun.
  - destruct (generate_multiple_layouts_post session num_layouts students seats
                strict σ) as (r & Hr & Hpost & _).
    rewrite Hrun' in Hr. simplify_eq.
    destruct (Hpost w σ' eq_refl) as ((Hlay & _) & _).
    rewrite Hlay in Ha. apply collected_from_calls in Ha.
    rewrite Forall_forall in Hrun. by apply (Hrun (Some a)).
  - intros σ1 result σ2 Hfr Hsolve a' ->.
    destruct (generator_frame_reads students σ σ1 Hfr) as (Hc & Hr1 & Hr2 & Hp).
    apply (placement_frame _ (list_at students σ1) seats strict σ σ1); try done.
    apply (solver_result_placement session _ seats strict σ1 σ2); try done.
    + by apply (symmetric_adjacency_reads (adjacent_lr σ)).
    + by apply (symmetric_adjacency_reads (adjacent_9 σ)).
  - apply generator_frame_refl.
  - simpl. constructor.
Qed.

(** X11. Every layout in the list [generate_multiple_layouts] returns is a
    legal assignment: one seat of the layout per student of the list handed
    in, no seat twice, rows and columns respected, required neighbours side
    by side and forbidden neighbours apart in the mode of the call. *)
Theorem generate_multiple_layouts_legal
    (session : SessionState) (num_layouts : Z) (students : nat)
    (seats : list Seat.t) (strict : bool) (σ σ' : State) (w : Loop)
    (a : Dict.t) :
  symmetric_adjacency (adjacent_lr σ) →
  symmetric_adjacency (adjacent_9 σ) →
  generate_multiple_layouts session num_layouts students seats strict σ
  = Some (inr (w, σ')) →
  a ∈ layouts w →
  placement (list_at students σ) seats strict σ a.
Proof. intros. by eapply generated_layouts_placements. Qed.

Lemma generate_multiple_layouts_legal_witness :
  placement [1; 2; 3] row_of_three true
    (room_state row_of_three [1; 2; 3] ∅ []) [(2, 2); (3, 3); (1, 1)].
Proof.
  pose (σ := room_state row_of_three [1; 2; 3] ∅ []).
  pose (r := generate_multiple_layouts (init_session_state row_of_three)
               1 0%nat row_of_three true σ).
  apply (generate_multiple_layouts_legal (init_session_state row_of_three)
           1 0%nat row_of_three true σ (final_generator_state r σ)
           (final_loop r)).
  - apply adjacent_lr_symmetric.
  - apply adjacent_9_symmetric.
  - vm_compute. reflexivity.
  - vm_compute. left.
Defined.

Lemma main_generate_placements session num_layouts student_ids seats σ ls σ' :
  is_Some (lists σ !! student_ids) →
  symmetric_adjacency (adjacent_lr σ) →
  symmetric_adjacency (adjacent_9 σ) →
  main_generate session num_layouts student_ids seats σ = Some (inr (ls, σ')) →
  (ls ≠ [] ∧ ∀ a, a ∈ ls → placement (list_at student_ids σ) seats true σ a)
  ∨ (∀ a, a ∈ ls → placement (list_at student_ids σ) seats false σ a).
Proof.
  intros Hlive Hlr Hbox. unfold main_generate, list_copy.
  set (a1 := fresh (dom (lists σ))).
  set (σ1 := with_lists σ _).
  assert (Ha1 : a1 ≠ student_ids).
  { intros Heq. apply elem_of_dom in Hlive. rewrite <- Heq in Hlive.
    by apply (is_fresh (dom (lists σ))). }
  assert (Hl1 : list_at a1 σ1 = list_at student_ids σ).
  { unfold list_at at 1, σ1. simpl. by rewrite lookup_insert_eq. }
  destruct (generate_multiple_layouts session num_layouts a1 seats true σ1)
    as [[e|[w σ2]]|] eqn:Hrun1; try done.
  pose proof (generated_layouts_placements session num_layouts a1 seats true σ1
                w σ2 Hlr Hbox Hrun1) as Hpl1.
  rewrite Hl1 in Hpl1.
  destruct (layouts w) as [|l ls'] eqn:Hlay.
  - set (a3 := fresh (dom (lists σ2))).
    set (σ3 := with_lists σ2 _).
    destruct (generate_multiple_layouts_post session num_layouts a1 seats true σ1)
      as (r1 & Hr1 & Hpost1 & _).
    rewrite Hrun1 in Hr1. simplify_eq.
    destruct (Hpost1 w σ2 eq_refl) as (_ & _ & Hfr12).
    destruct (generator_frame_reads a1 σ1 σ2 Hfr12) as (Hc & Hrd1 & Hrd2 & _).
    destruct Hfr12 as (_ & _ & _ & Hoth & _).
    assert (Hl3 : list_at a3 σ3 = list_at student_ids σ).
    { unfold list_at at 1, σ3. simpl. rewrite lookup_insert_eq. simpl.
      unfold list_at. rewrite Hoth by done. unfold σ1. simpl.
      by rewrite lookup_insert_ne. }
    destruct (generate_multiple_layouts session num_layouts a3 seats false σ3)
      as [[e|[w' σ4]]|] eqn:Hrun3; try done.
    intros [= <- <-]. right. intros a Ha.
    apply (placement_frame _ (list_at a3 σ3) seats false σ σ3);
      [by rewrite Hl3|exact Hc|exact Hrd1|exact Hrd2|].
    apply (generated_layouts_placements session num_layouts a3 seats false σ3
             w' σ4); try done.
    + by apply (symmetric_adjacency_reads (adjacent_lr σ)).
    + by apply (symmetric_adjacency_reads (adjacent_9 σ)).
  - intros [= <- <-]. left. split; [done|]. intros a Ha.
    apply (placement_frame _ (list_at student_ids σ) seats true σ σ1);
      [done|done|done|done|]. by apply Hpl1.
Qed.

(** X12. The layouts [main] ends up with are all legal for the students it
    was given: either the strict call found some, and they keep the
    forbidden pairs out of each other's nine-box; or it found none, and
    they are the relaxed call's, which keep them from sitting side by
    side. The two modes are never mixed in one result. *)
Theorem main_generate_legal
    (session : SessionState) (num_layouts : Z) (student_ids : nat)
    (seats : list Seat.t) (σ σ' : State) (ls : list Dict.t) :
  is_Some (lists σ !! student_ids) →
  symmetric_adjacency (adjacent_lr σ) →
  symmetric_adjacency (adjacent_9 σ) →
  main_generate session num_layouts student_ids seats σ = Some (inr (ls, σ')) →
  (ls ≠ [] ∧ ∀ a, a ∈ ls → placement (list_at student_ids σ) seats true σ a)
  ∨ (∀ a, a ∈ ls → placement (list_at student_ids σ) seats false σ a).
Proof. apply main_generate_placements. Qed.

Lemma main_generate_legal_witness :
  ([[(2, 2); (3, 3); (1, 1)]] ≠ []
   ∧ ∀ a, a ∈ [[(2, 2); (3, 3); (1, 1)]] →
          placement [1; 2; 3] row_of_three true
            (room_state row_of_three [1; 2; 3] ∅ []) a)
  ∨ (∀ a, a ∈ [[(2, 2); (3, 3); (1, 1)]] →
          placement [1; 2; 3] row_of_three false
            (room_state row_of_three [1; 2; 3] ∅ []) a).
Proof.
  pose (σ := room_state row_of_three [1; 2; 3] ∅ []).
  pose (r := main_generate (init_session_state row_of_three) 1 0%nat
               row_of_three σ).
  apply (main_generate_legal (init_session_state row_of_three) 1 0%nat
           row_of_three σ
           (match r with Some (inr (_, σ')) => σ' | _ => σ end)
           [[(2, 2); (3, 3); (1, 1)]]).
  - vm_compute. eauto.
  - apply adjacent_lr_symmetric.
  - apply adjacent_9_symmetric.
  - vm_compute. reflexivity.
Defined.

(** ** The generator finds a layout whenever one exists *)






(** ** Building the constraints *)

Lemma base_fold_lookup (f : Z → StudentConstraint.t) students
    (m : gmap Z StudentConstraint.t) s :
  foldl (fun base sid => <[sid := f sid]> base) m students !! s
  = if bool_decide (s ∈ students) then Some (f s) else m !! s.
Proof.
  revert m. induction students as [|x students IH]; intros m; cbn [foldl].
  - case_bool_decide as Hin; [by apply elem_of_nil in Hin|done].
  - rewrite IH. case_bool_decide as Hin; case_bool_decide as Hin'; try done.
    + destruct Hin'. by right.
    + apply elem_of_cons in Hin' as [->|?]; [|done]. by rewrite lookup_insert_eq.
    + rewrite lookup_insert_ne; [done|]. intros ->. apply Hin'. by left.
Qed.

Lemma linked_singleton rule ty x y :
  linked [rule] ty x y ↔
  Rule.type rule = ty
  ∧ ((Rule.a rule = x ∧ Rule.b rule = y) ∨ (Rule.a rule = y ∧ Rule.b rule = x)).
Proof.
  unfold linked. split.
  - by intros (r & ->%list_elem_of_singleton & ?).
  - intros ?. exists rule. split; [by apply list_elem_of_singleton|done].
Qed.

Lemma linked_cons rule rules ty x y :
  linked (rule :: rules) ty x y ↔ linked [rule] ty x y ∨ linked rules ty x y.
Proof.
  unfold linked. split.
  - intros (r & [->|Hin]%elem_of_cons & H).
    + left. exists rule. split; [by apply list_elem_of_singleton|done].
    + right. by exists r.
  - intros [(r & ->%list_elem_of_singleton & H)|(r & Hin & H)].
    + exists rule. split; [by left|done].
    + exists r. split; [by right|done].
Qed.

Lemma linked_nil ty x y : ¬ linked [] ty x y.
Proof. by intros (r & ?%elem_of_nil & _). Qed.

Lemma rules_effect_nil base : rules_effect base base [].
Proof.
  intros x. destruct (base !! x) as [sc|]; [|done].
  unfold rule_effect. split_and!; try done; intros y; split; auto;
    intros [?|[_ ?%linked_nil]]; done.
Qed.

Lemma lookup_alter_two {A} (f g : A → A) (m : gmap Z A) a b x :
  alter f b (alter g a m) !! x
  = (if decide (x = b) then f else id)
      <$> ((if decide (x = a) then g else id) <$> m !! x).
Proof.
  destruct (decide (x = b)) as [Hb|Hb]; destruct (decide (x = a)) as [Ha|Ha];
    subst; rewrite ?lookup_alter_eq, ?lookup_alter_ne, ?lookup_alter_eq by done;
    by destruct (m !! _).
Qed.

Lemma apply_rule_effect base rule : rules_effect base (apply_rule base rule) [rule].
Proof.
  intros x. unfold apply_rule. case_bool_decide as Hguard.
  { destruct (base !! x) as [sc|] eqn:Hx; [|done].
    unfold rule_effect. split_and!; try done; intros y; split; auto;
      intros [?|[Hy Hl%linked_singleton]]; try done; exfalso;
      destruct Hy as [scy Hy];
      destruct Hl as (_ & [[Ha Hb]|[Ha Hb]]); subst;
      destruct Hguard; congruence. }
  assert (Ha : is_Some (base !! Rule.a rule)).
  { apply not_eq_None_Some. intros ?. apply Hguard. by left. }
  assert (Hb : is_Some (base !! Rule.b rule)).
  { apply not_eq_None_Some. intros ?. apply Hguard. by right. }
  destruct (Rule.type rule) eqn:Hty; rewrite ?lookup_alter_two;
    (destruct (base !! x) as [sc|] eqn:Hx; simpl; [|done]);
    unfold rule_effect; repeat case_decide; simpl;
    (split_and!; try done); intros y;
    rewrite linked_singleton, Hty, ?elem_of_union, ?elem_of_singleton;
    naive_solver.
Qed.

Lemma rules_effect_domain base cs rules y :
  rules_effect base cs rules → is_Some (cs !! y) ↔ is_Some (base !! y).
Proof.
  intros H. specialize (H y).
  destruct (base !! y), (cs !! y); try done; split; by eauto.
Qed.

Lemma rules_effect_cons base cs1 cs rule rules :
  rules_effect base cs1 [rule] → rules_effect cs1 cs rules →
  rules_effect base cs (rule :: rules).
Proof.
  intros H1 H2 x. pose proof (H1 x) as Hx1. pose proof (H2 x) as Hx2.
  destruct (base !! x) as [sc|], (cs1 !! x) as [sc1|], (cs !! x) as [sc'|];
    try done.
  destruct Hx1 as (Hi1 & Hr1 & Hc1 & Hbe1 & Hnot1).
  destruct Hx2 as (Hi2 & Hr2 & Hc2 & Hbe2 & Hnot2).
  unfold rule_effect. split_and!; try congruence; intros y;
    rewrite linked_cons; [rewrite Hbe2, Hbe1|rewrite Hnot2, Hnot1];
    rewrite (rules_effect_domain base cs1 [rule] y H1); tauto.
Qed.

Lemma foldl_apply_rule_effect rules base :
  rules_effect base (foldl apply_rule base rules) rules.
Proof.
  revert base. induction rules as [|rule rules IH]; intros base; cbn [foldl].
  - apply rules_effect_nil.
  - eapply rules_effect_cons; [apply apply_rule_effect|apply IH].
Qed.

Section constraints.
Context (str_strip : string → string) (str_split : string → list string)
  (int : string → option Z).

Lemma parse_rowcol_set_not_empty value :
  parse_rowcol_set str_strip str_split int value ≠ Some ∅.
Proof.
  unfold parse_rowcol_set. case_bool_decide; [done|].
  destruct (mapM int _) as [nums|]; [|done].
  case_bool_decide; [done|]. congruence.
Qed.

Lemma truthy_parse_rowcol_set value :
  truthy (parse_rowcol_set str_strip str_split int value)
  = if parse_rowcol_set str_strip str_split int value is Some _ then true else false.
Proof.
  pose proof (parse_rowcol_set_not_empty value) as Hne.
  destruct (parse_rowcol_set _ _ _ value) as [s|]; [|done]. simpl.
  rewrite bool_decide_eq_false_2; [done|]. congruence.
Qed.

Lemma build_constraints_lookup students row_map col_map rules x :
  match build_constraints str_strip str_split int students row_map col_map rules
        !! x with
  | Some sc =>
      x ∈ students
      ∧ rule_effect
          (base_constraints str_strip str_split int students row_map col_map)
          rules x
          (base_constraint str_strip str_split int row_map col_map x) sc
  | None => x ∉ students
  end.
Proof.
  unfold build_constraints.
  pose proof (foldl_apply_rule_effect rules
    (base_constraints str_strip str_split int students row_map col_map) x) as H.
  unfold base_constraints in H. rewrite base_fold_lookup in H.
  case_bool_decide as Hin.
  - destruct (foldl apply_rule _ rules !! x); [done|destruct H].
  - rewrite lookup_empty in H. destruct (foldl apply_rule _ rules !! x); done.
Qed.

Lemma base_is_Some students row_map col_map y :
  is_Some (base_constraints str_strip str_split int students row_map col_map !! y)
  ↔ y ∈ students.
Proof.
  unfold base_constraints. rewrite base_fold_lookup.
  case_bool_decide; rewrite ?lookup_empty; split; try done.
  all: try (by eauto); try (by intros [? ?]).
Qed.

(** X15. What [build_constraints] returns: a record for exactly the
    students of the list; each carries its own id and the parsed row and
    column cells; and [y] is in the must-be (must-not) set of [x] exactly
    when [y] is a student of the list and some rule of that type names
    [x] and [y], in either order. Rules naming a student outside the list,
    and rules of an unknown type, leave no trace. *)
Theorem build_constraints_relational
    (students : list Z) (row_map col_map : gmap Z (option string))
    (adjacency_rules : list Rule.t) (x : Z) :
  (is_Some (build_constraints str_strip str_split int students row_map col_map
              adjacency_rules !! x) ↔ x ∈ students)
  ∧ ∀ sc,
      build_constraints str_strip str_split int students row_map col_map
        adjacency_rules !! x = Some sc →
      StudentConstraint.id sc = x
      ∧ StudentConstraint.allowed_rows sc
        = parse_rowcol_set str_strip str_split int
            (default (Some EmptyString) (row_map !! x))
      ∧ StudentConstraint.allowed_cols sc
        = parse_rowcol_set str_strip str_split int
            (default (Some EmptyString) (col_map !! x))
      ∧ (∀ y, y ∈ StudentConstraint.must_be_adjacent_to sc ↔
              y ∈ students ∧ linked adjacency_rules MustBeAdjacent x y)
      ∧ (∀ y, y ∈ StudentConstraint.must_not_adjacent_to sc ↔
              y ∈ students ∧ linked adjacency_rules MustNotBeAdjacent x y).
Proof.
  pose proof (build_constraints_lookup students row_map col_map
                adjacency_rules x) as H.
  destruct (build_constraints _ _ _ students row_map col_map adjacency_rules !! x)
    as [sc0|] eqn:Hx.
  - destruct H as (Hin & Hid & Hrows & Hcols & Hbe & Hnot). split; [by eauto|].
    intros sc [= <-]. split_and!; try done; intros y;
      [rewrite Hbe|rewrite Hnot]; rewrite base_is_Some; simpl; set_solver.
  - split; [|done]. split; [by intros [? ?]|done].
Qed.

Lemma linked_sym rules ty x y : linked rules ty x y → linked rules ty y x.
Proof. intros (r & Hin & Hty & H). exists r. split_and!; try done. tauto. Qed.

Lemma build_constraints_sets students row_map col_map rules x sc :
  build_constraints str_strip str_split int students row_map col_map rules !! x
  = Some sc →
  x ∈ students
  ∧ (∀ y, y ∈ StudentConstraint.must_be_adjacent_to sc ↔
          y ∈ students ∧ linked rules MustBeAdjacent x y)
  ∧ (∀ y, y ∈ StudentConstraint.must_not_adjacent_to sc ↔
          y ∈ students ∧ linked rules MustNotBeAdjacent x y).
Proof.
  intros Hx.
  pose proof (build_constraints_lookup students row_map col_map rules x) as H.
  rewrite Hx in H. destruct H as (Hin & _ & _ & _ & Hbe & Hnot).
  split; [done|]. split; intros y; [rewrite Hbe|rewrite Hnot];
    rewrite base_is_Some; simpl; set_solver.
Qed.

Lemma build_constraints_is_Some students row_map col_map rules x :
  x ∈ students →
  is_Some (build_constraints str_strip str_split int students row_map col_map
             rules !! x).
Proof.
  intros Hin.
  pose proof (build_constraints_lookup students row_map col_map rules x) as H.
  destruct (build_constraints _ _ _ students row_map col_map rules !! x);
    [by eauto|done].
Qed.

Lemma build_constraints_mutual_constraints students row_map col_map rules :
  mutual_constraints
    (build_constraints str_strip str_split int students row_map col_map rules).
Proof.
  intros x y scy (Hy & Hbe & Hnot)%build_constraints_sets.
  split; intros Hin; [apply Hbe in Hin as [Hx Hl]|apply Hnot in Hin as [Hx Hl]];
    destruct (build_constraints_is_Some students row_map col_map rules x Hx)
      as [scx Hscx];
    exists scx; (split; [done|]);
    apply build_constraints_sets in Hscx as (_ & Hbex & Hnotx);
    [apply Hbex|apply Hnotx]; split; try done; by apply linked_sym.
Qed.

(** X16. Every relational constraint [build_constraints] records is
    mutual: whoever is named in the must-be (must-not) set of a student
    has a record of their own, and that record names the student back in
    its set of the same kind, whatever the rules are. *)
Theorem build_constraints_mutual
    (students : list Z) (row_map col_map : gmap Z (option string))
    (adjacency_rules : list Rule.t) :
  mutual_constraints
    (build_constraints str_strip str_split int students row_map col_map
       adjacency_rules).
Proof. apply build_constraints_mutual_constraints. Qed.

Lemma elem_of_new_rules student_ids rows rule :
  rule ∈ new_rules student_ids rows →
  Rule.type rule ≠ OtherType
  ∧ Rule.a rule ≠ Rule.b rule
  ∧ Rule.a rule ∈ student_ids
  ∧ Rule.b rule ∈ student_ids
  ∧ RuleRow.mk (Some (Rule.a rule)) (Some (Rule.b rule)) (Rule.type rule) ∈ rows.
Proof.
  unfold new_rules. rewrite list_elem_of_omap. intros (row & Hin & Hclean).
  unfold clean_rule in Hclean. destruct row as [[a|] [b|] ty]; simpl in *; try done.
  repeat case_bool_decide; try done. simplify_eq. simpl.
  split_and!; try done.
  - destruct (decide (a ∈ student_ids)); [done|]. exfalso. auto.
  - destruct (decide (b ∈ student_ids)); [done|]. exfalso. auto.
Qed.

(** X17. The constraints [main] hands to the generator, built from the
    rules its cleaning loop keeps: no student is in a relational set of
    their own record, and [y] is in the must-be (must-not) set of [x]
    exactly when a kept rule of that type names the two; no kept rule is
    dropped by [build_constraints], since the loop keeps only rules between
    two different students of the list. *)
Theorem main_constraints_well_formed
    (student_ids : list Z) (row_map col_map : gmap Z (option string))
    (rows : list RuleRow.t) (x : Z) (sc : StudentConstraint.t) :
  build_constraints str_strip str_split int student_ids row_map col_map
    (new_rules student_ids rows) !! x = Some sc →
  (x ∉ StudentConstraint.must_be_adjacent_to sc)
  ∧ (x ∉ StudentConstraint.must_not_adjacent_to sc)
  ∧ (∀ y, y ∈ StudentConstraint.must_be_adjacent_to sc ↔
          linked (new_rules student_ids rows) MustBeAdjacent x y)
  ∧ (∀ y, y ∈ StudentConstraint.must_not_adjacent_to sc ↔
          linked (new_rules student_ids rows) MustNotBeAdjacent x y).
Proof.
  intros (Hx & Hbe & Hnot)%build_constraints_sets.
  assert (Hirr : ∀ ty, ¬ linked (new_rules student_ids rows) ty x x).
  { intros ty (r & (_ & Hne & _)%elem_of_new_rules & _ & H). naive_solver. }
  assert (Hroster : ∀ ty y, linked (new_rules student_ids rows) ty x y →
                            y ∈ student_ids).
  { intros ty y (r & (_ & _ & Ha & Hb & _)%elem_of_new_rules & _ & H).
    naive_solver. }
  split_and!.
  - rewrite Hbe. intros [_ ?]. by eapply Hirr.
  - rewrite Hnot. intros [_ ?]. by eapply Hirr.
  - intros y. rewrite Hbe. split; [by intros [_ ?]|]. intros Hl. split; [|done].
    by eapply Hroster.
  - intros y. rewrite Hnot. split; [by intros [_ ?]|]. intros Hl. split; [|done].
    by eapply Hroster.
Qed.

(** X19. On every constraints dictionary that [build_constraints]
    returns, the score the solver sorts by is the score as the
    specification words it, [+2] for each allowed set that is present:
    the truthiness test of [constraint_score] and the [is not None] test of
    [is_seat_allowed_for_student] agree, because the parser never yields an
    empty set. *)
Theorem build_constraints_score
    (students : list Z) (row_map col_map : gmap Z (option string))
    (adjacency_rules : list Rule.t) (sid : Z) :
  constraint_score
    (build_constraints str_strip str_split int students row_map col_map
       adjacency_rules) sid
  = constraint_score_spec
      (build_constraints str_strip str_split int students row_map col_map
         adjacency_rules) sid.
Proof.
  unfold constraint_score, constraint_score_spec.
  pose proof (build_constraints_lookup students row_map col_map
                adjacency_rules sid) as H.
  destruct (build_constraints _ _ _ students row_map col_map adjacency_rules
              !! sid) as [sc|]; [|done].
  destruct H as (_ & _ & Hrows & Hcols & _). simpl in Hrows, Hcols.
  rewrite Hrows, Hcols, !truthy_parse_rowcol_set.
  destruct (parse_rowcol_set _ _ _ _), (parse_rowcol_set _ _ _ _); lia.
Qed.

(** X18. [parse_rowcol_set] never returns the empty set. When it returns
    a set, its members are exactly the integers of the non-blank
    comma-separated parts of the stripped text; and it returns [None]
    exactly when the stripped text is empty, or every part is blank, or
    some non-blank part is not an integer. *)
Theorem parse_rowcol_set_result (value : option string) :
  parse_rowcol_set str_strip str_split int value ≠ Some ∅
  ∧ (∀ s, parse_rowcol_set str_strip str_split int value = Some s →
       ∀ n, n ∈ s ↔
            ∃ part, part ∈ str_split (str_strip (default EmptyString value))
                    ∧ str_strip part ≠ EmptyString
                    ∧ int (str_strip part) = Some n)
  ∧ (parse_rowcol_set str_strip str_split int value = None ↔
       str_strip (default EmptyString value) = EmptyString
       ∨ (∀ part, part ∈ str_split (str_strip (default EmptyString value)) →
                  str_strip part = EmptyString)
       ∨ (∃ part, part ∈ str_split (str_strip (default EmptyString value))
                  ∧ str_strip part ≠ EmptyString
                  ∧ int (str_strip part) = None)).
Proof.
  split; [apply parse_rowcol_set_not_empty|].
  unfold parse_rowcol_set.
  set (v := str_strip (default EmptyString value)).
  set (parts := str_strip <$> filter _ (str_split v)).
  assert (Hparts : ∀ p, p ∈ parts ↔
            ∃ part, part ∈ str_split v ∧ str_strip part ≠ EmptyString
                    ∧ p = str_strip part).
  { intros p. unfold parts. rewrite list_elem_of_fmap. split.
    - intros (part & -> & [? ?]%list_elem_of_filter). by exists part.
    - intros (part & ? & ? & ->). exists part. split; [done|].
      by apply list_elem_of_filter. }
  case_bool_decide as Hv.
  { split; [done|]. split; [by left|done]. }
  destruct (mapM int parts) as [nums|] eqn:Hm.
  - apply mapM_Some in Hm.
    assert (Hnums : ∀ n, n ∈ nums ↔ ∃ p, p ∈ parts ∧ int p = Some n).
    { intros n. split.
      - intros Hn. apply list_elem_of_lookup in Hn as [i Hi].
        destruct (Forall2_lookup_r _ _ _ _ _ Hm Hi) as (p & Hp & Hint).
        exists p. split; [|done]. by eapply list_elem_of_lookup_2.
      - intros (p & Hp & Hint). apply list_elem_of_lookup in Hp as [i Hi].
        destruct (Forall2_lookup_l _ _ _ _ _ Hm Hi) as (n' & Hn' & Hint').
        assert (n' = n) as -> by congruence. by eapply list_elem_of_lookup_2. }
    case_bool_decide as Hempty.
    + split; [done|]. split; [intros _|done]. right. left.
      intros part Hin. destruct (decide (str_strip part = EmptyString)) as [|Hne];
        [done|]. exfalso.
      assert (Hp : str_strip part ∈ parts) by (apply Hparts; by exists part).
      apply list_elem_of_lookup in Hp as [i Hi].
      destruct (Forall2_lookup_l _ _ _ _ _ Hm Hi) as (n & Hn & _).
      apply list_elem_of_lookup_2 in Hn.
      assert (n ∈ (list_to_set nums : gset Z)) by by apply elem_of_list_to_set.
      set_solver.
    + split.
      * intros s [= <-] n. rewrite elem_of_list_to_set, Hnums. split.
        -- intros (p & (part & ? & ? & ->)%Hparts & Hint). by exists part.
        -- intros (part & ? & ? & Hint). exists (str_strip part).
           split; [|done]. apply Hparts. by exists part.
      * split; [done|]. intros [?|[Hall|(part & Hin & Hne & Hint)]]; [done| |].
        -- exfalso. apply Hempty. apply set_eq. intros n.
           rewrite elem_of_list_to_set, Hnums. split; [|set_solver].
           intros (p & (part & Hin & Hne & ->)%Hparts & _). by destruct Hne, (Hall part).
        -- exfalso.
           assert (Hp : str_strip part ∈ parts) by (apply Hparts; by exists part).
           apply list_elem_of_lookup in Hp as [i Hi].
           destruct (Forall2_lookup_l _ _ _ _ _ Hm Hi) as (n & _ & Hint').
           congruence.
  - split; [done|]. split; [intros _|done]. right. right.
    apply mapM_None in Hm. apply Exists_exists in Hm as (p & Hp & Hint).
    apply Hparts in Hp as (part & ? & ? & ->). by exists part.
Qed.
End constraints.

(** ** The reverse check on constraints as [main] builds them *)

Lemma incoming_from_outgoing student_id seat_id strict σ :
  mutual_constraints (constraints σ) →
  symmetric_adjacency (adjacent_lr σ) →
  symmetric_adjacency (adjacent_9 σ) →
  NoDup (Dict.keys (assignments σ)) →
  outgoing_ok student_id seat_id strict σ →
  incoming_ok student_id seat_id strict σ.
Proof.
  intros Hmut Hlr Hbox Hnd Hout other other_seat osc Hin Hosc.
  assert (Hget : Dict.get (assignments σ) other = Some other_seat).
  { rewrite dict_get_to_map. by apply elem_of_list_to_map_1. }
  destruct (Hmut student_id other osc Hosc) as [Hbe Hnot].
  split; intros Hs.
  - destruct (Hbe Hs) as (sc & Hsc & Ho).
    by apply (Hout sc other other_seat Hsc Hget).
  - destruct (Hnot Hs) as (sc & Hsc & Ho).
    destruct (Hout sc other other_seat Hsc Hget) as [_ Hzone].
    specialize (Hzone Ho). unfold forbidden_zone in *.
    destruct strict; intros Hc; apply Hzone; [by apply Hbox|by apply Hlr].
Qed.

(** X20. On mutual constraints, which is what [build_constraints] returns,
    and symmetric adjacency maps, which is what [build_adjacency_maps]
    returns, the third part of [check_partial_constraints] (the reverse
    check over the placed students) never rejects a seat that the first
    two parts accept: the verdict is [True] exactly when the seat admits
    the student and the student's own must-be and must-not sets are
    respected. *)
Theorem reverse_check_redundant
    (session : SessionState) (student_id seat_id : Z) (strict : bool)
    (σ σ' : State) (b : bool) :
  mutual_constraints (constraints σ) →
  symmetric_adjacency (adjacent_lr σ) →
  symmetric_adjacency (adjacent_9 σ) →
  NoDup (Dict.keys (assignments σ)) →
  check_partial_constraints session student_id seat_id strict σ = inr (b, σ') →
  (b = true ↔
   positional_ok session student_id seat_id σ
   ∧ outgoing_ok student_id seat_id strict σ).
Proof.
  intros Hmut Hlr Hbox Hnd Hck.
  apply check_partial_constraints_spec in Hck as [_ ->].
  unfold placement_ok. split; [tauto|]. intros [Hpos Hout].
  split_and!; try done. by apply incoming_from_outgoing.
Qed.

Lemma reverse_check_redundant_witness :
  verdict
    (check_partial_constraints (init_session_state row_of_three) 2 2 true
       (with_assignments
          (room_state row_of_three [1; 2]
             (build_constraints id no_split int_one [1; 2] ∅ ∅
                [Rule.mk 1 2 MustBeAdjacent]) [])
          [(1, 1)])) = true
  ↔ positional_ok (init_session_state row_of_three) 2 2
      (with_assignments
         (room_state row_of_three [1; 2]
            (build_constraints id no_split int_one [1; 2] ∅ ∅
               [Rule.mk 1 2 MustBeAdjacent]) [])
         [(1, 1)])
    ∧ outgoing_ok 2 2 true
        (with_assignments
           (room_state row_of_three [1; 2]
              (build_constraints id no_split int_one [1; 2] ∅ ∅
                 [Rule.mk 1 2 MustBeAdjacent]) [])
           [(1, 1)]).
Proof.
  pose (σ := with_assignments
               (room_state row_of_three [1; 2]
                  (build_constraints id no_split int_one [1; 2] ∅ ∅
                     [Rule.mk 1 2 MustBeAdjacent]) [])
               [(1, 1)]).
  pose (r := check_partial_constraints (init_session_state row_of_three) 2 2
               true σ).
  apply (reverse_check_redundant (init_session_state row_of_three) 2 2 true σ
           (final_state r σ) (verdict r)).
  - apply build_constraints_mutual_constraints.
  - apply adjacent_lr_symmetric.
  - apply adjacent_9_symmetric.
  - vm_compute. repeat constructor; set_solver.
  - vm_compute. reflexivity.
Defined.

Lemma main_constraints_well_formed_witness :
  (1 ∉ ({[2]} : gset Z))
  ∧ (1 ∉ (∅ : gset Z))
  ∧ (∀ y, y ∈ ({[2]} : gset Z) ↔
          linked
            (new_rules [1; 2]
               [RuleRow.mk (Some 1) (Some 2) MustBeAdjacent;
                RuleRow.mk (Some 1) (Some 1) MustNotBeAdjacent;
                RuleRow.mk None (Some 2) MustNotBeAdjacent;
                RuleRow.mk (Some 1) (Some 3) MustBeAdjacent])
            MustBeAdjacent 1 y)
  ∧ (∀ y, y ∈ (∅ : gset Z) ↔
          linked
            (new_rules [1; 2]
               [RuleRow.mk (Some 1) (Some 2) MustBeAdjacent;
                RuleRow.mk (Some 1) (Some 1) MustNotBeAdjacent;
                RuleRow.mk None (Some 2) MustNotBeAdjacent;
                RuleRow.mk (Some 1) (Some 3) MustBeAdjacent])
            MustNotBeAdjacent 1 y).
Proof.
  refine (main_constraints_well_formed id no_split int_one [1; 2] ∅ ∅
           [RuleRow.mk (Some 1) (Some 2) MustBeAdjacent;
            RuleRow.mk (Some 1) (Some 1) MustNotBeAdjacent;
            RuleRow.mk None (Some 2) MustNotBeAdjacent;
            RuleRow.mk (Some 1) (Some 3) MustBeAdjacent]
           1 (StudentConstraint.mk 1 None None {[2]} ∅) _).
  vm_compute. reflexivity.
Defined.

(** ** The canonical form of a layout *)

Lemma pair_ltb_false p q : pair_ltb q p = false ↔ pair_le p q.
Proof.
  unfold pair_ltb, pair_le. rewrite orb_false_iff, andb_false_iff.
  rewrite !Z.ltb_ge, Z.eqb_neq. lia.
Qed.

Lemma pair_ltb_true p q : pair_ltb q p = true → pair_le q p.
Proof.
  unfold pair_ltb, pair_le. rewrite orb_true_iff, andb_true_iff.
  rewrite !Z.ltb_lt, Z.eqb_eq. lia.
Qed.

Lemma pair_le_trans p q r : pair_le p q → pair_le q r → pair_le p r.
Proof. unfold pair_le. lia. Qed.

Lemma pair_le_antisym p q : pair_le p q → pair_le q p → p = q.
Proof. unfold pair_le. destruct p, q; simpl. intros. f_equal; lia. Qed.

Lemma insert_asc_Permutation p l : insert_asc p l ≡ₚ p :: l.
Proof.
  induction l as [|q l IH]; simpl; [done|].
  destruct (pair_ltb q p); [|done]. rewrite IH. apply Permutation_swap.
Qed.

Lemma sorted_items_Permutation d : sorted_items d ≡ₚ d.
Proof.
  unfold sorted_items. induction d as [|p d IH]; simpl; [done|].
  by rewrite insert_asc_Permutation, IH.
Qed.

Lemma insert_asc_sorted p l :
  StronglySorted pair_le l → StronglySorted pair_le (insert_asc p l).
Proof.
  induction 1 as [|q l Hs IH Hq]; simpl.
  - repeat constructor.
  - destruct (pair_ltb q p) eqn:Hlt.
    + constructor; [done|]. apply Forall_forall. intros x.
      rewrite insert_asc_Permutation. intros [->|Hx]%elem_of_cons.
      * by apply pair_ltb_true.
      * rewrite Forall_forall in Hq. by apply Hq.
    + apply pair_ltb_false in Hlt. constructor; [by constructor|].
      constructor; [done|]. eapply Forall_impl; [exact Hq|].
      intros x Hx. by eapply pair_le_trans.
Qed.

Lemma sorted_items_sorted d : StronglySorted pair_le (sorted_items d).
Proof.
  unfold sorted_items. induction d as [|p d IH]; simpl; [constructor|].
  by apply insert_asc_sorted.
Qed.

Lemma sorted_items_canonical a b : a ≡ₚ b ↔ sorted_items a = sorted_items b.
Proof.
  split.
  - intros Hp. apply (StronglySorted_unique_strong pair_le).
    + intros. by apply pair_le_antisym.
    + apply sorted_items_sorted.
    + apply sorted_items_sorted.
    + by rewrite !sorted_items_Permutation.
  - intros Heq. rewrite <- (sorted_items_Permutation a), Heq.
    apply sorted_items_Permutation.
Qed.

Lemma sorted_items_by_student d :
  StronglySorted (fun p q => p.1 ≤ q.1) (sorted_items d).
Proof.
  induction (sorted_items_sorted d) as [|p l Hs IH Hp]; constructor; [done|].
  eapply Forall_impl; [exact Hp|]. unfold pair_le. intros q. simpl. lia.
Qed.

(** The layouts of a run are solver results, so their keys are unique. *)
Lemma generated_layouts_keys session num_layouts students seats strict σ w σ' :
  generate_multiple_layouts session num_layouts students seats strict σ
  = Some (inr (w, σ')) →
  ∀ a, a ∈ layouts w → NoDup (Dict.keys a).
Proof.
  intros Hrun a Ha. pose proof Hrun as Hrun'.
  unfold generate_multiple_layouts in Hrun.
  apply (generate_loop_results
           (fun r => ∀ a, r = Some a → NoDup (Dict.keys a))
           session num_layouts (num_layouts * 30) students seats strict σ)
    in Hrun.
  - destruct (generate_multiple_layouts_post session num_layouts students seats
                strict σ) as (r & Hr & Hpost & _).
    rewrite Hrun' in Hr. simplify_eq.
    destruct (Hpost w σ' eq_refl) as ((Hlay & _) & _).
    rewrite Hlay in Ha. apply collected_from_calls in Ha.
    rewrite Forall_forall in Hrun. by apply (Hrun (Some a)).
  - intros σ1 result σ2 Hfr Hsolve a' ->.
    by destruct (solver_result_injective session _ seats strict σ1 σ2 a' Hsolve)
      as (_ & ? & _).
  - apply generator_frame_refl.
  - simpl. constructor.
Qed.

Lemma distinct_layouts (ls : list Dict.t) i j a b :
  NoDup (sorted_items <$> ls) → i ≠ j →
  ls !! i = Some a → ls !! j = Some b →
  ¬ a ≡ₚ b.
Proof.
  intros Hnd Hij Ha Hb Hp. apply Hij.
  apply (NoDup_lookup _ i j (sorted_items a) Hnd).
  - by rewrite list_lookup_fmap, Ha.
  - rewrite list_lookup_fmap, Hb. simpl. f_equal.
    symmetry. by apply sorted_items_canonical.
Qed.

(** ** Runs under the recursion limit *)

(** ** With enough frames the limited run is the run *)










(** ** A limited run that does not hit the limit is the run *)










(** ** The generator's budget and its distinct layouts *)

(** C3. Every call of [generate_multiple_layouts] ends, without running
    out of the loop's measure; when it returns, the list holds at most
    [num_layouts] assignments; the solver was called at most
    [num_layouts * 30] times, once per attempt; the list is exactly the
    results of those calls with failures and duplicates dropped; before
    every call fewer than [num_layouts] layouts had been collected and
    fewer than [num_layouts * 30] calls made; and at the end one of the two
    bounds is reached.  The canonical form is a sort: [sorted_items d] holds
    the pairs of [d], ordered by student id, and two dictionaries have the
    same canonical form exactly when they hold the same pairs.  So the
    returned assignments are pairwise distinct: no two of them, at
    different positions, hold the same pairs, or are the same mapping from
    students to seats. *)
Theorem generate_multiple_layouts_budget
    (session : SessionState) (num_layouts : Z) (students : nat)
    (seats : list Seat.t) (strict : bool) (σ : State) :
  (∀ d, sorted_items d ≡ₚ d
        ∧ StronglySorted (fun p q => p.1 ≤ q.1) (sorted_items d))
  ∧ (∀ a b, sorted_items a = sorted_items b ↔ a ≡ₚ b)
  ∧ ∃ r,
      generate_multiple_layouts session num_layouts students seats strict σ
      = Some r
      ∧ ∀ w σ', r = inr (w, σ') →
          Z.of_nat (length (layouts w)) ≤ Z.max 0 num_layouts
          ∧ NoDup (sorted_items <$> layouts w)
          ∧ Z.of_nat (length (calls w)) ≤ Z.max 0 (num_layouts * 30)
          ∧ attempts w = Z.of_nat (length (calls w))
          ∧ layouts w = collected (calls w)
          ∧ (∀ p q, calls w = p ++ q → q ≠ [] →
               Z.of_nat (length (collected p)) < num_layouts
               ∧ Z.of_nat (length p) < num_layouts * 30)
          ∧ (num_layouts ≤ Z.of_nat (length (layouts w))
             ∨ num_layouts * 30 ≤ Z.of_nat (length (calls w)))
          ∧ (∀ i j a b,
               i ≠ j → layouts w !! i = Some a → layouts w !! j = Some b →
               ¬ a ≡ₚ b ∧ Dict.to_map a ≠ Dict.to_map b).
Proof.
  split; [|split].
  - intros d. split; [apply sorted_items_Permutation|apply sorted_items_by_student].
  - intros a b. symmetry. apply sorted_items_canonical.
  - destruct (generate_multiple_layouts_post session num_layouts students seats
                strict σ) as (r & Hr & Hpost & _).
    exists r. split; [done|]. intros w σ' ->.
    destruct (Hpost w σ' eq_refl)
      as ((Hlay & Hseen & Hatt & Hnd & Hlen & Hbud & Hpre) & Hcond & _).
    split_and!; try done.
    + by rewrite <- Hatt.
    + unfold loop_condition in Hcond. rewrite <- Hatt.
      apply andb_false_iff in Hcond as [Hc%Z.ltb_ge|Hc%Z.ltb_ge];
        [by left|by right].
    + intros i j a b Hij Ha Hb.
      assert (Hdiff : ¬ a ≡ₚ b) by by eapply distinct_layouts.
      split; [done|]. intros Heq. apply Hdiff.
      apply (list_to_map_inj (M := gmap Z)); [| |exact Heq].
      * apply (generated_layouts_keys session num_layouts students seats strict
                 σ w σ' Hr a). by eapply list_elem_of_lookup_2.
      * apply (generated_layouts_keys session num_layouts students seats strict
                 σ w σ' Hr b). by eapply list_elem_of_lookup_2.
Qed.

(** ** Failure is a result, within limits *)








(** ** The solver under the recursion limit *)





(** ** The generator under the recursion limit *)





